(** * Tic-tac-toe: the grid and its minimax search

    A shallow embedding of [tic_tac_toe.py]: the class [Grid] (a 3x3 list of
    one-character strings with two mark counters), the recursive search
    [minimax], the move selection [find_best_move] and the click handler of
    [TicTacToeUI.main].  Drawing and the window are left out: they never
    touch the grid. *)

From Stdlib Require Import String ZArith Bool Lia Arith List.
Import ListNotations.

Local Open Scope string_scope.
Local Open Scope Z_scope.
Local Open Scope list_scope.

(** ** Data *)

(** [class Mark(enum.Enum)]: two members, whose values are the strings
    stored in the board. *)
Inductive Mark : Set := X | O.

Definition value (m : Mark) : string :=
  match m with X => "X" | O => "O" end.

Definition Mark_eqb (a b : Mark) : bool :=
  match a, b with X, X | O, O => true | _, _ => false end.

(** The attributes of a [Grid] object.  [board] is a list of rows; the
    constructor makes three rows of three [" "], but a Python list has no
    fixed shape, so the shape is a property ([wf_board] below) and not part
    of the type. *)
Record Grid : Type := mkGrid
  { board : list (list string); x_count : Z; o_count : Z }.

(** [Grid.__init__] *)
Definition Grid_init : Grid :=
  {| board := repeat (repeat " " 3%nat) 3%nat; x_count := 0; o_count := 0 |}.

(** The exceptions the program can raise: the [ValueError] of [make_move]
    and the [IndexError] of a subscript out of range. *)
Inductive exn : Set := ValueError (msg : string) | IndexError.

(** What a call comes to: a value, an exception, or (for the recursion,
    which is bounded by a counter here) the counter running out. *)
Inductive outcome (A : Type) : Type :=
| Ok (a : A)
| Raise (e : exn)
| OutOfFuel.
Arguments Ok {A} a.
Arguments Raise {A} e.
Arguments OutOfFuel {A}.

(** The values [best_val] goes through: [-float("inf")], [float("inf")] and
    the integers returned by [evaluate]. *)
Inductive number : Set := NegInf | Int (z : Z) | PosInf.

(** [a > b] *)
Definition gt (a b : number) : bool :=
  match a, b with
  | NegInf, _ => false
  | _, PosInf => false
  | Int x, Int y => y <? x
  | _, _ => true
  end.

(** Python's [max(a, b)] and [min(a, b)] keep the first argument unless the
    second is strictly beyond it. *)
Definition py_max (a b : number) : number := if gt b a then b else a.
Definition py_min (a b : number) : number := if gt a b then b else a.

(** [range(n)] *)
Definition range (n : nat) : list nat := seq 0 n.

(** ** Queries: expressions that read the board

    Reading never changes the grid; it can only raise [IndexError].
    Subscripts are natural numbers: the program takes them from [range(3)]
    and from the floor division of a position inside the window. *)

Definition obind {A B} (m : outcome A) (k : A -> outcome B) : outcome B :=
  match m with
  | Ok a => k a
  | Raise e => Raise e
  | OutOfFuel => OutOfFuel
  end.

Notation "'let?' x ':=' m 'in' k" := (obind m (fun x => k))
  (at level 10, x name, m at level 100, k at level 200).

(** [l[i]] *)
Definition getitem {A} (l : list A) (i : nat) : outcome A :=
  match nth_error l i with
  | Some a => Ok a
  | None => Raise IndexError
  end.

(** [board[row][col]] *)
Definition cell (b : list (list string)) (row col : nat) : outcome string :=
  let? r := getitem b row in getitem r col.

(** [l[i] = v] *)
Fixpoint setitem {A} (l : list A) (i : nat) (v : A) : outcome (list A) :=
  match l, i with
  | [], _ => Raise IndexError
  | _ :: l', 0%nat => Ok (v :: l')
  | a :: l', S i' => let? r := setitem l' i' v in Ok (a :: r)
  end.

(** [board[row][col] = v] *)
Definition setcell (b : list (list string)) (row col : nat) (v : string)
  : outcome (list (list string)) :=
  let? r := getitem b row in
  let? r' := setitem r col v in
  setitem b row r'.

(** [for x in l: if f(x): return True], telling whether it returned. *)
Fixpoint any_of {A} (f : A -> outcome bool) (l : list A) : outcome bool :=
  match l with
  | [] => Ok false
  | x :: l' => let? t := f x in if t then Ok true else any_of f l'
  end.

(** The chained comparison [board[p] == board[q] == board[r] != " "]: the
    third cell is read only when the first two agree. *)
Definition same3_marked (b : list (list string)) (p q r : nat * nat)
  : outcome bool :=
  let? x := cell b (fst p) (snd p) in
  let? y := cell b (fst q) (snd q) in
  if negb (x =? y)%string then Ok false else
  let? z := cell b (fst r) (snd r) in
  if negb (y =? z)%string then Ok false else
  Ok (negb (z =? " ")%string).

(** The chained comparison [board[p] == board[q] == board[r] == v]. *)
Definition same3_as (b : list (list string)) (p q r : nat * nat) (v : string)
  : outcome bool :=
  let? x := cell b (fst p) (snd p) in
  let? y := cell b (fst q) (snd q) in
  if negb (x =? y)%string then Ok false else
  let? z := cell b (fst r) (snd r) in
  if negb (y =? z)%string then Ok false else
  Ok (z =? v)%string.

(** [Grid.is_valid_move] *)
Definition is_valid_move (g : Grid) (row col : nat) : outcome bool :=
  let? c := cell (board g) row col in Ok (c =? " ")%string.

(** [Grid.is_terminal_state] *)
Definition is_terminal_state (g : Grid) : outcome bool :=
  let b := board g in
  let? r := any_of (fun row => same3_marked b (row, 0) (row, 1) (row, 2))%nat
                   (range 3) in
  if r then Ok true else
  let? c := any_of (fun col => same3_marked b (0, col) (1, col) (2, col))%nat
                   (range 3) in
  if c then Ok true else
  let? d := same3_marked b (0, 0)%nat (1, 1)%nat (2, 2)%nat in
  if d then Ok true else
  let? a := same3_marked b (0, 2)%nat (1, 1)%nat (2, 0)%nat in
  if a then Ok true else
  Ok (forallb (fun row => forallb (fun c => negb (c =? " ")%string) row) b).

(** The body of the loop [for mark in (Mark.X, Mark.O)] of [evaluate],
    telling whether one of its four [return]s was taken. *)
Definition has_line (b : list (list string)) (mark : Mark) : outcome bool :=
  let mark_value := value mark in
  let? r := any_of (fun row => same3_as b (row, 0) (row, 1) (row, 2) mark_value)%nat
                   (range 3) in
  if r then Ok true else
  let? c := any_of (fun col => same3_as b (0, col) (1, col) (2, col) mark_value)%nat
                   (range 3) in
  if c then Ok true else
  let? d := same3_as b (0, 0)%nat (1, 1)%nat (2, 2)%nat mark_value in
  if d then Ok true else
  same3_as b (0, 2)%nat (1, 1)%nat (2, 0)%nat mark_value.

(** [1 if mark == Mark.X else -1] *)
Definition line_score (mark : Mark) : Z := if Mark_eqb mark X then 1 else -1.

Fixpoint evaluate_marks (b : list (list string)) (marks : list Mark) : outcome Z :=
  match marks with
  | [] => Ok 0
  | mark :: rest =>
      let? w := has_line b mark in
      if w then Ok (line_score mark) else evaluate_marks b rest
  end.

(** [Grid.evaluate] *)
Definition evaluate (g : Grid) : outcome Z := evaluate_marks (board g) [X; O].

(** ** Commands: code that changes the grid

    The grid is one object, mutated in place and shared by the search and
    the game loop, so commands pass it along.  Next to the grid they pass a
    ghost value of any type [H], to which every completed call of a mutating
    method is reported with the grid it leaves: the program has no such
    thing, and no command reads it.  With [H := unit] it is the program
    alone; with a list it is the history of the grid. *)

Inductive call : Set :=
| Made (row col : nat) (mark : Mark)
| Undone (row col : nat).

(** The events the loop looks at, and whether the process is still running
    or has left through [sys.exit()], with the message printed if any. *)
Inductive Event : Set :=
| QUIT
| MOUSEBUTTONDOWN (mouse_x mouse_y : nat)
| OTHER.

Inductive status : Set :=
| Running
| Exited (printed : option string).

Section Commands.

Context {H : Type} (note : call -> Grid -> H -> H).

Definition M (A : Type) : Type := Grid * H -> outcome A * (Grid * H).

Definition ret {A} (a : A) : M A := fun w => (Ok a, w).

Definition bind {A B} (m : M A) (k : A -> M B) : M B :=
  fun w =>
    match m w with
    | (Ok a, w') => k a w'
    | (Raise e, w') => (Raise e, w')
    | (OutOfFuel, w') => (OutOfFuel, w')
    end.

Definition raise {A} (e : exn) : M A := fun w => (Raise e, w).

Definition out_of_fuel {A} : M A := fun w => (OutOfFuel, w).

(** Evaluate a query on the current grid. *)
Definition query {A} (q : Grid -> outcome A) : M A :=
  fun w => (q (fst w), w).

(** Replace the grid. *)
Definition store (g : Grid) : M unit := fun w => (Ok tt, (g, snd w)).

(** Report a completed call. *)
Definition observe (c : call) : M unit :=
  fun w => (Ok tt, (fst w, note c (fst w) (snd w))).

Notation "x <- m ;; k" := (bind m (fun x => k))
  (at level 100, m at next level, right associativity).
Notation "m ;; k" := (bind m (fun _ => k))
  (at level 100, right associativity).

(** [for x in l: acc = body(x, acc)] *)
Fixpoint for_ {A B} (l : list A) (acc : B) (body : A -> B -> M B) : M B :=
  match l with
  | [] => ret acc
  | x :: l' => acc' <- body x acc ;; for_ l' acc' body
  end.

(** [self.board[row][col] = v] *)
Definition assign_cell (row col : nat) (v : string) : M unit :=
  g <- query Ok ;;
  b <- query (fun g => setcell (board g) row col v) ;;
  store {| board := b; x_count := x_count g; o_count := o_count g |}.

(** [self.x_count += d] and [self.o_count += d] *)
Definition add_x_count (d : Z) : M unit :=
  g <- query Ok ;;
  store {| board := board g; x_count := x_count g + d; o_count := o_count g |}.

Definition add_o_count (d : Z) : M unit :=
  g <- query Ok ;;
  store {| board := board g; x_count := x_count g; o_count := o_count g + d |}.

(** [Grid.make_move] *)
Definition make_move (row col : nat) (mark : Mark) : M unit :=
  valid <- query (fun g => is_valid_move g row col) ;;
  if negb valid then raise (ValueError "Invalid move") else
  assign_cell row col (value mark) ;;
  (if Mark_eqb mark X then add_x_count 1 else add_o_count 1) ;;
  observe (Made row col mark).

(** [Grid.undo_move] *)
Definition undo_move (row col : nat) : M unit :=
  c <- query (fun g => cell (board g) row col) ;;
  (if negb (c =? " ")%string then
     c' <- query (fun g => cell (board g) row col) ;;
     (if (c' =? value X)%string then add_x_count (-1) else add_o_count (-1)) ;;
     assign_cell row col " "
   else ret tt) ;;
  observe (Undone row col).

(** [minimax].  Python recurses freely; here the recursion is counted
    down from [fuel].  A call can go nine levels deep at most, one for
    each cell it fills (see [minimax_total]). *)
Fixpoint minimax_rec (fuel : nat) (depth : Z) (is_maximizing_player : bool)
  : M number :=
  match fuel with
  | 0%nat => out_of_fuel
  | S fuel' =>
      t <- query is_terminal_state ;;
      if t then (v <- query evaluate ;; ret (Int v))
      else if is_maximizing_player then
        for_ (range 3) NegInf (fun row best_val =>
          for_ (range 3) best_val (fun col best_val =>
            ok <- query (fun g => is_valid_move g row col) ;;
            if ok then
              make_move row col X ;;
              val <- minimax_rec fuel' (depth + 1) false ;;
              undo_move row col ;;
              ret (py_max best_val val)
            else ret best_val))
      else
        for_ (range 3) PosInf (fun row best_val =>
          for_ (range 3) best_val (fun col best_val =>
            ok <- query (fun g => is_valid_move g row col) ;;
            if ok then
              make_move row col O ;;
              val <- minimax_rec fuel' (depth + 1) true ;;
              undo_move row col ;;
              ret (py_min best_val val)
            else ret best_val))
  end.

Definition minimax (depth : Z) (is_maximizing_player : bool) : M number :=
  minimax_rec 10 depth is_maximizing_player.

(** [find_best_move]; the accumulator is [(best_move, best_val)]. *)
Definition find_best_move : M (option (nat * nat)) :=
  r <- for_ (range 3) (None, NegInf) (fun row acc =>
         for_ (range 3) acc (fun col acc =>
           ok <- query (fun g => is_valid_move g row col) ;;
           if ok then
             make_move row col X ;;
             val <- minimax 0 false ;;
             undo_move row col ;;
             (if gt val (snd acc) then ret (Some (row, col), val)
              else ret acc)
           else ret acc)) ;;
  ret (fst r).

(** ** The game loop of [TicTacToeUI]

    Only what touches the grid is kept: drawing is left out, and
    [end_game] is the message it prints before [sys.exit()]. *)

Definition end_game (message : string) : M status :=
  ret (Exited (Some message)).

(** The body of [for event in pygame.event.get()].  The position read by
    [pygame.mouse.get_pos()] comes with the event. *)
Definition on_event (event : Event) : M status :=
  match event with
  | QUIT => ret (Exited None)
  | MOUSEBUTTONDOWN mouse_x mouse_y =>
      let col := (mouse_x / 100)%nat in
      let row := (mouse_y / 100)%nat in
      ok <- query (fun g => is_valid_move g row col) ;;
      if ok then
        make_move row col O ;;
        t <- query is_terminal_state ;;
        if t then end_game "Human wins!" else
        best_move <- find_best_move ;;
        match best_move with
        | Some (r, c) => make_move r c X
        | None => ret tt
        end ;;
        t' <- query is_terminal_state ;;
        if t' then
          e <- query evaluate ;;
          if e =? 1 then end_game "AI wins!" else
          e' <- query evaluate ;;
          if e' =? -1 then end_game "Human wins!" else end_game "Draw!"
        else ret Running
      else ret Running
  | OTHER => ret Running
  end.

Fixpoint on_events (events : list Event) : M status :=
  match events with
  | [] => ret Running
  | event :: rest =>
      s <- on_event event ;;
      match s with
      | Running => on_events rest
      | Exited _ => ret s
      end
  end.

(** [TicTacToeUI.main]: one list of events for each turn of
    [while running]. *)
Fixpoint main (frames : list (list Event)) : M status :=
  match frames with
  | [] => ret Running
  | events :: rest =>
      s <- on_events events ;;
      match s with
      | Running => main rest
      | Exited _ => ret s
      end
  end.

End Commands.


(** ** Two ways to run a command *)

(** The program alone: nothing is recorded. *)
Definition silent : call -> Grid -> unit -> unit := fun _ _ _ => tt.

Definition run {A} (m : M (H := unit) A) (g : Grid) : outcome A * Grid :=
  let r := m (g, tt) in (fst r, fst (snd r)).

(** The history of the grid: every completed call, oldest first, with the
    grid it left. *)
Definition history : Type := list (call * Grid).

Definition record : call -> Grid -> history -> history :=
  fun c g h => h ++ [(c, g)].

(** ** Vocabulary of the statements *)

(** The shape [__init__] gives the board, kept by every method. *)
Definition wf_board (b : list (list string)) : Prop :=
  length b = 3%nat /\ Forall (fun r => length r = 3%nat) b.

Definition wf (g : Grid) : Prop := wf_board (board g).

(** The nine cells in the order of the two nested [range(3)] loops. *)
Definition coords : list (nat * nat) := list_prod (range 3) (range 3).

(** The eight lines: three rows, three columns, two diagonals. *)
Definition lines : list ((nat * nat) * (nat * nat) * (nat * nat)) :=
  [ ((0, 0), (0, 1), (0, 2)); ((1, 0), (1, 1), (1, 2)); ((2, 0), (2, 1), (2, 2));
    ((0, 0), (1, 0), (2, 0)); ((0, 1), (1, 1), (2, 1)); ((0, 2), (1, 2), (2, 2));
    ((0, 0), (1, 1), (2, 2)); ((0, 2), (1, 1), (2, 0)) ]%nat.

(** The three cells of line [l] all hold [s]. *)
Definition line_of (b : list (list string))
  (l : (nat * nat) * (nat * nat) * (nat * nat)) (s : string) : Prop :=
  let '(p, q, r) := l in
  cell b (fst p) (snd p) = Ok s /\
  cell b (fst q) (snd q) = Ok s /\
  cell b (fst r) (snd r) = Ok s.

(** Some line is three times [s]. *)
Definition completed (b : list (list string)) (s : string) : Prop :=
  exists l, In l lines /\ line_of b l s.

(** No cell is empty. *)
Definition full (b : list (list string)) : Prop :=
  forall r c, (r < 3)%nat -> (c < 3)%nat -> cell b r c <> Ok " ".

(** What the queries answer, as plain values. *)
Definition terminal (g : Grid) : bool :=
  match is_terminal_state g with Ok t => t | _ => true end.

Definition eval (g : Grid) : Z :=
  match evaluate g with Ok z => z | _ => 0 end.

Definition valid (g : Grid) (p : nat * nat) : bool :=
  match is_valid_move g (fst p) (snd p) with Ok t => t | _ => false end.

(** The empty cells in scan order. *)
Definition moves (g : Grid) : list (nat * nat) := filter (valid g) coords.

(** The grid [make_move] leaves. *)
Definition place (g : Grid) (p : nat * nat) (mark : Mark) : Grid :=
  fst (snd (make_move silent (fst p) (snd p) mark (g, tt))).

(** [a <= b] on [number]: not [a > b]. *)
Definition le (a b : number) : Prop := gt a b = false.

(** Who moves in each mode of the search, and how the mode folds scores. *)
Definition mover (is_max : bool) : Mark := if is_max then X else O.
Definition pick (is_max : bool) : number -> number -> number :=
  if is_max then py_max else py_min.
Definition worst (is_max : bool) : number := if is_max then NegInf else PosInf.

(** The value of a position as a function of the grid: what [minimax_rec]
    returns (see [minimax_rec_value]). *)
Fixpoint value_of (fuel : nat) (g : Grid) (is_max : bool) : number :=
  match fuel with
  | 0%nat => worst is_max
  | S fuel' =>
      if terminal g then Int (eval g)
      else
        fold_left
          (fun best p =>
             if valid g p
             then pick is_max best (value_of fuel' (place g p (mover is_max)) (negb is_max))
             else best)
          coords (worst is_max)
  end.

(** The score [find_best_move] gives a cell: [minimax] in minimizing mode
    on the grid with X there. *)
Definition score_after (g : Grid) (p : nat * nat) : number :=
  match run (minimax silent 0 false) (place g p X) with
  | (Ok v, _) => v
  | _ => NegInf
  end.

(** One turn of the loop of [find_best_move], and the move it ends with. *)
Definition keep_best (sc : nat * nat -> number)
  (acc : option (nat * nat) * number) (p : nat * nat)
  : option (nat * nat) * number :=
  if gt (sc p) (snd acc) then (Some p, sc p) else acc.

Definition best_move (g : Grid) : option (nat * nat) :=
  fst (fold_left (keep_best (fun p => value_of 10 (place g p X) false))
                 (moves g) (None, NegInf)).

(** [res] is the first cell of [l] with the greatest score: it beats every
    cell scanned before it, and no later cell beats it. *)
Definition first_best (sc : nat * nat -> number) (l : list (nat * nat))
  (res : option (nat * nat)) : Prop :=
  match res with
  | None => l = []
  | Some p =>
      exists l1 l2, l = l1 ++ p :: l2 /\
        (forall q, In q l1 -> gt (sc p) (sc q) = true) /\
        (forall q, In q l2 -> gt (sc q) (sc p) = false)
  end.

(** Calls in matched pairs: each [make_move] is closed by the [undo_move] of
    the same cell, which brings back the grid the pair started from, and
    pairs nest. *)
Inductive nested (g : Grid) : history -> Prop :=
| nested_nil : nested g []
| nested_pair p mark tr1 tr2 :
    valid g p = true ->
    nested (place g p mark) tr1 -> nested g tr2 ->
    nested g ((Made (fst p) (snd p) mark, place g p mark)
                :: tr1 ++ (Undone (fst p) (snd p), g) :: tr2).

(** Short-circuit tests over a list. *)
Fixpoint some_of {A} (f : A -> bool) (l : list A) : bool :=
  match l with
  | [] => false
  | x :: l' => if f x then true else some_of f l'
  end.

Fixpoint each_of {A} (f : A -> bool) (l : list A) : bool :=
  match l with
  | [] => true
  | x :: l' => if f x then each_of f l' else false
  end.

(** Certificates for bounds on [value_of]: [reaches] follows one good move
    of the maximizing side against every reply, [stays] one good move of the
    minimizing side; neither visits the whole tree. *)
Fixpoint reaches (fuel : nat) (z : Z) (g : Grid) (is_max : bool) : bool :=
  match fuel with
  | 0%nat => false
  | S f =>
      if terminal g then z <=? eval g
      else if is_max then
        some_of (fun p => if valid g p then reaches f z (place g p X) false else false) coords
      else
        each_of (fun p => if valid g p then reaches f z (place g p O) true else true) coords
  end.

Fixpoint stays (fuel : nat) (z : Z) (g : Grid) (is_max : bool) : bool :=
  match fuel with
  | 0%nat => false
  | S f =>
      if terminal g then eval g <=? z
      else if is_max then
        each_of (fun p => if valid g p then stays f z (place g p X) false else true) coords
      else
        some_of (fun p => if valid g p then stays f z (place g p O) true else false) coords
  end.

(** The two chained comparisons on three cell values, and the test for an
    empty cell. *)
Definition line3 (x y z : string) : bool :=
  ((x =? y)%string && (y =? z)%string && negb (z =? " ")%string)%bool.

Definition win3 (v x y z : string) : bool :=
  ((x =? y)%string && (y =? z)%string && (z =? v)%string)%bool.

Definition blank (s : string) : bool := (s =? " ")%string.

(** [m] returns [a] and leaves the grid [g] as it found it, the record
    going from [h] to some [h'] with [R g h h']. *)
Definition computes {H A} (R : Grid -> H -> H -> Prop) (m : M A)
  (g : Grid) (a : A) : Prop :=
  forall h, exists h', m (g, h) = (Ok a, (g, h')) /\ R g h h'.

(** The record [h'] continues [h] with matched pairs of calls on [g], all
    leaving grids that satisfy [Good]. *)
Definition grows (Good : Grid -> Prop) (g : Grid) (h h' : history) : Prop :=
  exists tr, h' = h ++ tr /\ nested g tr /\ Forall (fun e => Good (snd e)) tr.

(** Nothing is known, nothing is asked. *)
Definition any_grid : bool -> Grid -> Prop := fun _ _ => True.
Definition any_record {H} : Grid -> H -> H -> Prop := fun _ _ _ => True.

(** A score between -1 and 1. *)
Definition bounded (n : number) : Prop := exists z, n = Int z /\ -1 <= z <= 1.

(** Two boards used as examples: X can complete the top row; and a board
    no game reaches, with a row of X above a row of O. *)
Definition row_to_win : Grid :=
  {| board := [["X"; "X"; " "]; ["O"; "O"; " "]; [" "; " "; " "]];
     x_count := 2; o_count := 2 |}.

Definition both_lines : Grid :=
  {| board := [["X"; "X"; "X"]; ["O"; "O"; "O"]; [" "; " "; " "]];
     x_count := 3; o_count := 3 |}.

(** The lead of X over O in the counters, what it is when each side is to
    move in a game the human opens, and the two values it then takes. *)
Definition lead (g : Grid) : Z := x_count g - o_count g.

Definition to_move (is_max : bool) (g : Grid) : Prop :=
  lead g = if is_max then -1 else 0.

Definition level (g : Grid) : Prop := lead g = -1 \/ lead g = 0.

(** What holds of the result [r] of handling events from the grid [g] and
    the record [h], when the human is to move in [g]: the record continues
    [h] with grids that are [level], the grid left is [level], and if the
    loop goes on the human is to move again. *)
Definition after_events (h : history)
  (r : outcome status * (Grid * history)) : Prop :=
  exists tr,
    snd (snd r) = h ++ tr /\
    Forall (fun e => level (snd e)) tr /\
    level (fst (snd r)) /\
    (fst r = Ok Running -> wf (fst (snd r)) /\ lead (fst (snd r)) = 0).

(** [x] is at least as good as [y] for the side that maximizes ([true])
    or minimizes ([false]). *)
Definition better (is_max : bool) (x y : number) : Prop :=
  if is_max then le y x else le x y.

(** What a click on the empty cell [p] comes to, as a function of the
    grid: the human's O, then the reply of [find_best_move] unless the game
    is over (see [on_event_click_run]). *)
Definition final_message (z : Z) : string :=
  if z =? 1 then "AI wins!" else if z =? -1 then "Human wins!" else "Draw!".

Definition click_outcome (g : Grid) (p : nat * nat) : outcome status * Grid :=
  let g1 := place g p O in
  if terminal g1 then (Ok (Exited (Some "Human wins!")), g1)
  else
    match best_move g1 with
    | Some q =>
        let g2 := place g1 q X in
        if terminal g2
        then (Ok (Exited (Some (final_message (eval g2)))), g2)
        else (Ok Running, g2)
    | None => (Ok Running, g1)
    end.

(** A grid where the human is to move and cannot force a win: the game is
    not over and [minimax] in minimizing mode gives at least 0. *)
Definition safe (g : Grid) : Prop :=
  wf g /\ terminal g = false /\ le (Int 0) (value_of 10 g false).

(** Every cell holds one of the three strings the program writes. *)
Definition marks_only (g : Grid) : Prop :=
  forall r c s, cell (board g) r c = Ok s -> s = " " \/ s = "X" \/ s = "O".

(** A grid as the loop finds it before an event: [safe], written by the
    program only, and with an odd number of empty cells. *)
Definition humans_turn (g : Grid) : Prop :=
  safe g /\ marks_only g /\ Nat.odd (length (moves g)) = true.

(** What the loop can end with. *)
Definition fair_end (o : outcome status) (g : Grid) : Prop :=
  match o with
  | Ok (Exited (Some message)) =>
      (message = "AI wins!" /\ evaluate g = Ok 1) \/
      (message = "Human wins!" /\ evaluate g = Ok 0 /\ full (board g))
  | _ => True
  end.

(** The number of cells of the board that hold [s], and the grids whose
    counters are these numbers for X and O. *)
Definition holds (g : Grid) (s : string) (p : nat * nat) : bool :=
  match cell (board g) (fst p) (snd p) with
  | Ok c => (c =? s)%string
  | _ => false
  end.

Definition count_mark (g : Grid) (s : string) : nat :=
  length (filter (holds g s) coords).

Definition counts_agree (g : Grid) : Prop :=
  x_count g = Z.of_nat (count_mark g "X") /\
  o_count g = Z.of_nat (count_mark g "O").

(** * Properties *)

(** ** Subscripts *)

Lemma getitem_inv {A} (l : list A) i a :
  getitem l i = Ok a -> nth_error l i = Some a.
Proof.
  unfold getitem. destruct (nth_error l i); congruence.
Qed.

Lemma getitem_lt {A} (l : list A) i :
  (i < length l)%nat -> exists a, getitem l i = Ok a.
Proof.
  intros Hi. unfold getitem.
  destruct (nth_error l i) eqn:E; [eauto|].
  apply nth_error_None in E. lia.
Qed.

Lemma getitem_Ok_lt {A} (l : list A) i a :
  getitem l i = Ok a -> (i < length l)%nat.
Proof.
  intros E. apply getitem_inv in E. apply nth_error_Some. congruence.
Qed.

Lemma getitem_cons {A} (a : A) l i : getitem (a :: l) (S i) = getitem l i.
Proof. reflexivity. Qed.

Lemma setitem_defined {A} (l : list A) i a v :
  getitem l i = Ok a -> exists l', setitem l i v = Ok l'.
Proof.
  revert i. induction l as [|x l IH]; intros [|i] E; simpl.
  - discriminate.
  - discriminate.
  - eauto.
  - rewrite getitem_cons in E. destruct (IH _ E) as [l' ->]. simpl. eauto.
Qed.

Lemma setitem_inv {A} (l l' : list A) i v :
  setitem l i v = Ok l' -> exists a, getitem l i = Ok a.
Proof.
  revert i l'. induction l as [|x l IH]; intros [|i] l' E; simpl in *;
    try discriminate.
  - exists x. reflexivity.
  - rewrite getitem_cons. destruct (setitem l i v) eqn:E'; try discriminate.
    eauto.
Qed.

Lemma getitem_setitem {A} (l l' : list A) i j v :
  setitem l i v = Ok l' ->
  getitem l' j = if (i =? j)%nat then Ok v else getitem l j.
Proof.
  revert i j l'. induction l as [|x l IH]; intros [|i] j l' E; simpl in *;
    try discriminate.
  - inversion E; subst. destruct j; reflexivity.
  - destruct (setitem l i v) eqn:E'; try discriminate.
    simpl in E. inversion E; subst.
    destruct j as [|j]; [reflexivity|].
    rewrite !getitem_cons. simpl. eauto.
Qed.

Lemma setitem_length {A} (l l' : list A) i v :
  setitem l i v = Ok l' -> length l' = length l.
Proof.
  revert i l'. induction l as [|x l IH]; intros [|i] l' E; simpl in *;
    try discriminate.
  - inversion E; reflexivity.
  - destruct (setitem l i v) eqn:E'; try discriminate.
    simpl in E. inversion E; subst. simpl. f_equal. eauto.
Qed.

Lemma setitem_back {A} (l l' : list A) i a v :
  getitem l i = Ok a -> setitem l i v = Ok l' -> setitem l' i a = Ok l.
Proof.
  revert i l'. induction l as [|x l IH]; intros [|i] l' Ea E; simpl in *;
    try discriminate.
  - inversion E; subst. unfold getitem in Ea. simpl in Ea.
    inversion Ea; reflexivity.
  - destruct (setitem l i v) eqn:E'; try discriminate.
    simpl in E. inversion E; subst. simpl.
    rewrite getitem_cons in Ea. rewrite (IH _ _ Ea E'). reflexivity.
Qed.

Lemma setitem_Forall {A} (P : A -> Prop) (l l' : list A) i v :
  Forall P l -> P v -> setitem l i v = Ok l' -> Forall P l'.
Proof.
  revert i l'. induction l as [|x l IH]; intros [|i] l' Hl Hv E; simpl in *;
    try discriminate.
  - inversion E; subst. inversion Hl; subst. constructor; assumption.
  - destruct (setitem l i v) eqn:E'; try discriminate.
    simpl in E. inversion E; subst. inversion Hl; subst.
    constructor; eauto.
Qed.

(** ** Cells *)

Lemma cell_setcell b b' r c v r' c' :
  setcell b r c v = Ok b' ->
  cell b' r' c' = if ((r =? r') && (c =? c'))%nat then Ok v else cell b r' c'.
Proof.
  unfold setcell, cell. intros E.
  destruct (getitem b r) as [row| |] eqn:Er; try discriminate. simpl in E.
  destruct (setitem row c v) as [row'| |] eqn:Ec; try discriminate. simpl in E.
  rewrite (getitem_setitem _ _ _ r' _ E).
  destruct (Nat.eqb_spec r r') as [->|Hr]; simpl.
  - rewrite (getitem_setitem _ _ _ c' _ Ec). rewrite Er. simpl.
    destruct (c =? c')%nat; reflexivity.
  - reflexivity.
Qed.

Lemma setcell_defined b r c s v :
  cell b r c = Ok s -> exists b', setcell b r c v = Ok b'.
Proof.
  unfold setcell, cell. intros E.
  destruct (getitem b r) as [row| |] eqn:Er; try discriminate. simpl in *.
  destruct (setitem_defined _ _ _ v E) as [row' ->]. simpl.
  eapply setitem_defined; eauto.
Qed.

Lemma setcell_back b b' r c s v :
  cell b r c = Ok s -> setcell b r c v = Ok b' -> setcell b' r c s = Ok b.
Proof.
  unfold setcell, cell. intros Es E.
  destruct (getitem b r) as [row| |] eqn:Er; try discriminate. simpl in *.
  destruct (setitem row c v) as [row'| |] eqn:Ec; try discriminate. simpl in E.
  rewrite (getitem_setitem _ _ _ r _ E), Nat.eqb_refl. simpl.
  rewrite (setitem_back _ _ _ _ _ Es Ec). simpl.
  eapply setitem_back; eauto.
Qed.

Lemma setcell_wf b b' r c v :
  wf_board b -> setcell b r c v = Ok b' -> wf_board b'.
Proof.
  unfold setcell, wf_board. intros [Hl Hr] E.
  destruct (getitem b r) as [row| |] eqn:Er; try discriminate. simpl in *.
  destruct (setitem row c v) as [row'| |] eqn:Ec; try discriminate. simpl in E.
  split.
  - rewrite (setitem_length _ _ _ _ E). assumption.
  - eapply setitem_Forall; [eassumption| |eassumption].
    rewrite (setitem_length _ _ _ _ Ec).
    rewrite Forall_forall in Hr. apply Hr.
    apply getitem_inv in Er. eapply nth_error_In; eauto.
Qed.

Lemma cell_wf b r c :
  wf_board b -> (r < 3)%nat -> (c < 3)%nat -> exists s, cell b r c = Ok s.
Proof.
  intros [Hl Hr] Hlt Hc. unfold cell.
  destruct (getitem_lt b r) as [row Er]; [lia|]. rewrite Er. simpl.
  apply getitem_lt.
  rewrite Forall_forall in Hr. rewrite (Hr row); [assumption|].
  apply getitem_inv in Er. eapply nth_error_In; eauto.
Qed.

Lemma cell_lt b r c s :
  wf_board b -> cell b r c = Ok s -> (r < 3)%nat /\ (c < 3)%nat.
Proof.
  intros [Hl Hr] E. unfold cell in E.
  destruct (getitem b r) as [row| |] eqn:Er; try discriminate. simpl in E.
  apply getitem_Ok_lt in E. pose proof (getitem_Ok_lt _ _ _ Er) as Hlt.
  rewrite Forall_forall in Hr. rewrite (Hr row) in E; [lia|].
  apply getitem_inv in Er. eapply nth_error_In; eauto.
Qed.

Lemma wf_board_inv b :
  wf_board b ->
  exists a0 a1 a2 b0 b1 b2 c0 c1 c2,
    b = [[a0; a1; a2]; [b0; b1; b2]; [c0; c1; c2]].
Proof.
  intros [Hl Hr].
  destruct b as [|r0 [|r1 [|r2 [|]]]]; try discriminate.
  inversion Hr as [|? ? H0 Hr1]; subst.
  inversion Hr1 as [|? ? H1 Hr2]; subst.
  inversion Hr2 as [|? ? H2 _]; subst.
  destruct r0 as [|? [|? [|? [|]]]]; try discriminate.
  destruct r1 as [|? [|? [|? [|]]]]; try discriminate.
  destruct r2 as [|? [|? [|? [|]]]]; try discriminate.
  repeat eexists.
Qed.

Lemma in_coords p : In p coords <-> (fst p < 3)%nat /\ (snd p < 3)%nat.
Proof.
  destruct p as [r c]. unfold coords, range. rewrite in_prod_iff, !in_seq.
  simpl. lia.
Qed.

(** ** The queries on a 3x3 board *)

Lemma same3_marked_cells b p q r x y z :
  cell b (fst p) (snd p) = Ok x ->
  cell b (fst q) (snd q) = Ok y ->
  cell b (fst r) (snd r) = Ok z ->
  same3_marked b p q r = Ok (line3 x y z).
Proof.
  intros Hx Hy Hz. unfold same3_marked, line3. rewrite Hx, Hy. simpl.
  destruct (x =? y)%string; simpl; [|reflexivity].
  rewrite Hz. simpl. destruct (y =? z)%string; reflexivity.
Qed.

Lemma same3_as_cells b p q r v x y z :
  cell b (fst p) (snd p) = Ok x ->
  cell b (fst q) (snd q) = Ok y ->
  cell b (fst r) (snd r) = Ok z ->
  same3_as b p q r v = Ok (win3 v x y z).
Proof.
  intros Hx Hy Hz. unfold same3_as, win3. rewrite Hx, Hy. simpl.
  destruct (x =? y)%string; simpl; [|reflexivity].
  rewrite Hz. simpl. destruct (y =? z)%string; reflexivity.
Qed.

Lemma is_terminal_state_explicit g a0 a1 a2 b0 b1 b2 c0 c1 c2 :
  board g = [[a0; a1; a2]; [b0; b1; b2]; [c0; c1; c2]] ->
  is_terminal_state g =
  Ok (line3 a0 a1 a2 || line3 b0 b1 b2 || line3 c0 c1 c2 ||
      line3 a0 b0 c0 || line3 a1 b1 c1 || line3 a2 b2 c2 ||
      line3 a0 b1 c2 || line3 a2 b1 c0 ||
      (negb (blank a0) && negb (blank a1) && negb (blank a2) &&
       negb (blank b0) && negb (blank b1) && negb (blank b2) &&
       negb (blank c0) && negb (blank c1) && negb (blank c2)))%bool.
Proof.
  intros Hb. unfold is_terminal_state, range. rewrite Hb.
  cbn [any_of seq].
  repeat (erewrite same3_marked_cells by reflexivity).
  cbn [obind].
  repeat match goal with
         | |- context [line3 ?x ?y ?z] =>
             destruct (line3 x y z); cbn [obind orb]; try reflexivity
         end.
  cbn [forallb]. unfold blank. rewrite !andb_true_r. rewrite !andb_assoc.
  reflexivity.
Qed.

Lemma has_line_explicit b mark a0 a1 a2 b0 b1 b2 c0 c1 c2 :
  b = [[a0; a1; a2]; [b0; b1; b2]; [c0; c1; c2]] ->
  has_line b mark =
  Ok (let v := value mark in
      win3 v a0 a1 a2 || win3 v b0 b1 b2 || win3 v c0 c1 c2 ||
      win3 v a0 b0 c0 || win3 v a1 b1 c1 || win3 v a2 b2 c2 ||
      win3 v a0 b1 c2 || win3 v a2 b1 c0)%bool.
Proof.
  intros Hb. unfold has_line, range. rewrite Hb.
  cbn [any_of seq].
  repeat (erewrite same3_as_cells by reflexivity).
  cbn [obind]. cbv zeta.
  repeat match goal with
         | |- context [win3 ?v ?x ?y ?z] =>
             destruct (win3 v x y z); cbn [obind orb]; try reflexivity
         end.
Qed.

Lemma line3_true x y z :
  line3 x y z = true <-> x = y /\ y = z /\ z <> " ".
Proof.
  unfold line3. rewrite !andb_true_iff, negb_true_iff, !String.eqb_eq, String.eqb_neq.
  tauto.
Qed.

Lemma win3_true v x y z :
  win3 v x y z = true <-> x = v /\ y = v /\ z = v.
Proof.
  unfold win3. rewrite !andb_true_iff, !String.eqb_eq.
  split; [intros [[-> ->] ->]|intros (-> & -> & ->)]; auto.
Qed.

Lemma completed_explicit b v a0 a1 a2 b0 b1 b2 c0 c1 c2 :
  b = [[a0; a1; a2]; [b0; b1; b2]; [c0; c1; c2]] ->
  completed b v <->
  (win3 v a0 a1 a2 || win3 v b0 b1 b2 || win3 v c0 c1 c2 ||
   win3 v a0 b0 c0 || win3 v a1 b1 c1 || win3 v a2 b2 c2 ||
   win3 v a0 b1 c2 || win3 v a2 b1 c0)%bool = true.
Proof.
  intros ->. rewrite !orb_true_iff, !win3_true. split.
  - intros (l & Hin & Hl). unfold lines in Hin.
    simpl in Hin.
    repeat (destruct Hin as [<-|Hin]);
      try contradiction;
      cbn in Hl; destruct Hl as (E1 & E2 & E3);
      inversion E1; inversion E2; inversion E3; subst; tauto.
  - intros Hc. unfold completed, lines.
    repeat (destruct Hc as [Hc|Hc]);
      destruct Hc as (-> & -> & ->);
      [ exists ((0, 0), (0, 1), (0, 2))%nat | exists ((1, 0), (1, 1), (1, 2))%nat
      | exists ((2, 0), (2, 1), (2, 2))%nat | exists ((0, 0), (1, 0), (2, 0))%nat
      | exists ((0, 1), (1, 1), (2, 1))%nat | exists ((0, 2), (1, 2), (2, 2))%nat
      | exists ((0, 0), (1, 1), (2, 2))%nat | exists ((0, 2), (1, 1), (2, 0))%nat ];
      (split; [simpl; tauto | cbn; auto]).
Qed.

Lemma full_explicit b a0 a1 a2 b0 b1 b2 c0 c1 c2 :
  b = [[a0; a1; a2]; [b0; b1; b2]; [c0; c1; c2]] ->
  full b <->
  (negb (blank a0) && negb (blank a1) && negb (blank a2) &&
   negb (blank b0) && negb (blank b1) && negb (blank b2) &&
   negb (blank c0) && negb (blank c1) && negb (blank c2))%bool = true.
Proof.
  intros ->. unfold full, blank.
  rewrite !andb_true_iff, !negb_true_iff, !String.eqb_neq. split.
  - intros Hf.
    repeat split;
      match goal with
      | |- ?a <> _ => intros ->
      end.
    + apply (Hf 0 0)%nat; auto.
    + apply (Hf 0 1)%nat; auto.
    + apply (Hf 0 2)%nat; auto.
    + apply (Hf 1 0)%nat; auto.
    + apply (Hf 1 1)%nat; auto.
    + apply (Hf 1 2)%nat; auto.
    + apply (Hf 2 0)%nat; auto.
    + apply (Hf 2 1)%nat; auto.
    + apply (Hf 2 2)%nat; auto.
  - intros Hn r c Hr Hc E.
    destruct r as [|[|[|r]]]; [| | |lia];
      (destruct c as [|[|[|c]]]; [| | |lia]);
      cbn in E; inversion E; subst; tauto.
Qed.

Lemma marked_line_explicit b a0 a1 a2 b0 b1 b2 c0 c1 c2 :
  b = [[a0; a1; a2]; [b0; b1; b2]; [c0; c1; c2]] ->
  (exists s, s <> " " /\ completed b s) <->
  (line3 a0 a1 a2 || line3 b0 b1 b2 || line3 c0 c1 c2 ||
   line3 a0 b0 c0 || line3 a1 b1 c1 || line3 a2 b2 c2 ||
   line3 a0 b1 c2 || line3 a2 b1 c0)%bool = true.
Proof.
  intros Hb. rewrite !orb_true_iff, !line3_true. split.
  - intros (s & Hs & Hc).
    rewrite (completed_explicit _ _ _ _ _ _ _ _ _ _ _ Hb) in Hc.
    rewrite !orb_true_iff, !win3_true in Hc.
    repeat (destruct Hc as [Hc|Hc]); destruct Hc as (-> & -> & ->); tauto.
  - intros Hc.
    repeat (destruct Hc as [Hc|Hc]);
      destruct Hc as (E1 & E2 & Hn);
      match type of Hn with
      | ?z <> _ =>
          exists z; split; [assumption|];
          rewrite (completed_explicit _ _ _ _ _ _ _ _ _ _ _ Hb);
          rewrite !orb_true_iff, !win3_true; subst; tauto
      end.
Qed.

Lemma is_terminal_state_wf g : wf g -> is_terminal_state g = Ok (terminal g).
Proof.
  intros Hw. destruct (wf_board_inv _ Hw) as (a0&a1&a2&b0&b1&b2&c0&c1&c2&Hb).
  unfold terminal. rewrite (is_terminal_state_explicit _ _ _ _ _ _ _ _ _ _ Hb).
  reflexivity.
Qed.

Lemma has_line_wf b mark :
  wf_board b -> exists w, has_line b mark = Ok w /\ (w = true <-> completed b (value mark)).
Proof.
  intros Hw. destruct (wf_board_inv _ Hw) as (a0&a1&a2&b0&b1&b2&c0&c1&c2&Hb).
  rewrite (has_line_explicit _ mark _ _ _ _ _ _ _ _ _ Hb).
  eexists. split; [reflexivity|]. cbv zeta.
  symmetry. apply completed_explicit. assumption.
Qed.

(** What [evaluate] returns, in terms of the lines on the board: the loop
    over [(Mark.X, Mark.O)] looks for a line of X first. *)
Lemma evaluate_lines g :
  wf g ->
  exists z, evaluate g = Ok z /\
    (z = 1 <-> completed (board g) "X") /\
    (z = -1 <-> completed (board g) "O" /\ ~ completed (board g) "X") /\
    (z = 0 <-> ~ completed (board g) "X" /\ ~ completed (board g) "O").
Proof.
  intros Hw. unfold evaluate, evaluate_marks.
  destruct (has_line_wf _ X Hw) as (wx & -> & Hx).
  destruct (has_line_wf _ O Hw) as (wo & Ho & Hoc).
  simpl in Hx, Hoc. cbn [obind].
  destruct wx.
  - exists 1. split; [reflexivity|].
    assert (completed (board g) "X") by (apply Hx; reflexivity).
    repeat split; intros; try tauto; try lia; destruct H0; tauto.
  - rewrite Ho. cbn [obind].
    assert (~ completed (board g) "X") by (intros Hc; apply Hx in Hc; discriminate).
    destruct wo.
    + exists (-1). split; [reflexivity|].
      assert (completed (board g) "O") by (apply Hoc; reflexivity).
      repeat split; intros; try tauto; try lia.
    + exists 0. split; [reflexivity|].
      assert (~ completed (board g) "O") by (intros Hc; apply Hoc in Hc; discriminate).
      repeat split; intros; try tauto; try lia.
Qed.

Lemma evaluate_wf g : wf g -> evaluate g = Ok (eval g).
Proof.
  intros Hw. destruct (evaluate_lines g Hw) as (z & E & _).
  unfold eval. rewrite E. reflexivity.
Qed.

Lemma eval_range g : wf g -> -1 <= eval g <= 1.
Proof.
  intros Hw. destruct (evaluate_lines g Hw) as (z & E & H1 & H2 & H3).
  unfold eval. rewrite E.
  destruct (Z.eq_dec z 1); [lia|].
  destruct (Z.eq_dec z (-1)); [lia|].
  assert (z = 0); [|lia].
  apply H3. split; intros Hc.
  - apply H1 in Hc. contradiction.
  - destruct (Z.eq_dec z 1) as [|_]; [contradiction|].
    assert (~ completed (board g) "X") by (intros Hx; apply H1 in Hx; contradiction).
    assert (z = -1) by (apply H2; tauto). contradiction.
Qed.

Lemma valid_true g p :
  valid g p = true <-> cell (board g) (fst p) (snd p) = Ok " ".
Proof.
  unfold valid, is_valid_move.
  destruct (cell (board g) (fst p) (snd p)) as [s| |]; simpl.
  - rewrite String.eqb_eq. split; congruence.
  - split; discriminate.
  - split; discriminate.
Qed.

Lemma is_valid_move_wf g p :
  wf g -> In p coords -> is_valid_move g (fst p) (snd p) = Ok (valid g p).
Proof.
  intros Hw Hp. apply in_coords in Hp. destruct Hp as [Hr Hc].
  destruct (cell_wf _ _ _ Hw Hr Hc) as [s Hs].
  unfold valid, is_valid_move. rewrite Hs. reflexivity.
Qed.

Lemma valid_in_coords g p : wf g -> valid g p = true -> In p coords.
Proof.
  intros Hw Hv. apply valid_true in Hv. apply in_coords.
  eapply cell_lt; eauto.
Qed.

Lemma in_moves g p : wf g -> In p (moves g) <-> valid g p = true.
Proof.
  intros Hw. unfold moves. rewrite filter_In. split; [tauto|].
  intros Hv. split; [eapply valid_in_coords; eauto|assumption].
Qed.

(** ** The two mutating methods *)

Lemma value_not_blank mark : (value mark =? " ")%string = false.
Proof. destruct mark; reflexivity. Qed.

Section Methods.

Context {H : Type} (note : call -> Grid -> H -> H).

Lemma make_move_empty g h r c mark b' :
  cell (board g) r c = Ok " " ->
  setcell (board g) r c (value mark) = Ok b' ->
  let g' := if Mark_eqb mark X
            then {| board := b'; x_count := x_count g + 1; o_count := o_count g |}
            else {| board := b'; x_count := x_count g; o_count := o_count g + 1 |} in
  make_move note r c mark (g, h) = (Ok tt, (g', note (Made r c mark) g' h)).
Proof.
  intros Hc Hs g'. subst g'.
  unfold make_move, bind, query, is_valid_move. simpl. rewrite Hc. simpl.
  unfold assign_cell, bind, query, store. simpl. rewrite Hs.
  destruct mark; reflexivity.
Qed.

Lemma make_move_taken g h r c mark s :
  cell (board g) r c = Ok s -> s <> " " ->
  make_move note r c mark (g, h) = (Raise (ValueError "Invalid move"), (g, h)).
Proof.
  intros Hc Hs.
  unfold make_move, bind, query, is_valid_move. simpl. rewrite Hc. simpl.
  apply String.eqb_neq in Hs. rewrite Hs. reflexivity.
Qed.

Lemma make_move_outside g h r c mark e :
  cell (board g) r c = Raise e ->
  make_move note r c mark (g, h) = (Raise e, (g, h)).
Proof.
  intros Hc.
  unfold make_move, bind, query, is_valid_move. simpl. rewrite Hc. reflexivity.
Qed.

Lemma undo_move_marked g h r c s b' :
  cell (board g) r c = Ok s -> s <> " " ->
  setcell (board g) r c " " = Ok b' ->
  let g' := if (s =? value X)%string
            then {| board := b'; x_count := x_count g + -1; o_count := o_count g |}
            else {| board := b'; x_count := x_count g; o_count := o_count g + -1 |} in
  undo_move note r c (g, h) = (Ok tt, (g', note (Undone r c) g' h)).
Proof.
  intros Hc Hs Hb g'. subst g'. apply String.eqb_neq in Hs.
  unfold undo_move, bind, query. simpl. rewrite Hc, Hs. simpl.
  rewrite Hc.
  destruct (s =? "X")%string;
    unfold add_x_count, add_o_count, assign_cell, bind, query, store;
    cbn [fst snd board]; rewrite Hb; reflexivity.
Qed.

Lemma undo_move_blank g h r c :
  cell (board g) r c = Ok " " ->
  undo_move note r c (g, h) = (Ok tt, (g, note (Undone r c) g h)).
Proof.
  intros Hc. unfold undo_move, bind, query. simpl. rewrite Hc. reflexivity.
Qed.

End Methods.

Lemma place_eq g p mark b' :
  valid g p = true ->
  setcell (board g) (fst p) (snd p) (value mark) = Ok b' ->
  place g p mark =
  if Mark_eqb mark X
  then {| board := b'; x_count := x_count g + 1; o_count := o_count g |}
  else {| board := b'; x_count := x_count g; o_count := o_count g + 1 |}.
Proof.
  intros Hv Hs. apply valid_true in Hv. unfold place.
  rewrite (make_move_empty silent g tt _ _ mark b' Hv Hs). reflexivity.
Qed.

Lemma place_board g p mark :
  valid g p = true ->
  setcell (board g) (fst p) (snd p) (value mark) = Ok (board (place g p mark)).
Proof.
  intros Hv. pose proof Hv as Hc. apply valid_true in Hc.
  destruct (setcell_defined _ _ _ _ (value mark) Hc) as [b' Hb'].
  rewrite (place_eq _ _ _ _ Hv Hb'). rewrite Hb'. destruct mark; reflexivity.
Qed.

Lemma place_counts g p mark :
  valid g p = true ->
  x_count (place g p mark) = x_count g + (if Mark_eqb mark X then 1 else 0) /\
  o_count (place g p mark) = o_count g + (if Mark_eqb mark X then 0 else 1).
Proof.
  intros Hv. pose proof Hv as Hc. apply valid_true in Hc.
  destruct (setcell_defined _ _ _ _ (value mark) Hc) as [b' Hb'].
  rewrite (place_eq _ _ _ _ Hv Hb'). destruct mark; simpl; lia.
Qed.

Lemma place_wf g p mark : wf g -> valid g p = true -> wf (place g p mark).
Proof.
  intros Hw Hv. unfold wf. eapply setcell_wf; [exact Hw|].
  apply place_board. assumption.
Qed.

Lemma place_cell g p mark r c :
  valid g p = true ->
  cell (board (place g p mark)) r c =
  if ((fst p =? r) && (snd p =? c))%nat then Ok (value mark)
  else cell (board g) r c.
Proof.
  intros Hv. apply cell_setcell. apply place_board. assumption.
Qed.

Lemma place_valid g p mark q :
  valid g p = true -> valid (place g p mark) q = true ->
  valid g q = true /\ q <> p.
Proof.
  intros Hv Hq. rewrite valid_true in Hq. rewrite (place_cell _ _ _ _ _ Hv) in Hq.
  destruct ((fst p =? fst q) && (snd p =? snd q))%nat eqn:E.
  - inversion Hq as [Hq']. destruct mark; discriminate.
  - split; [apply valid_true; assumption|].
    intros ->. rewrite !Nat.eqb_refl in E. discriminate.
Qed.

Section Methods_on_place.

Context {H : Type} (note : call -> Grid -> H -> H).

Lemma make_move_valid g h p mark :
  valid g p = true ->
  make_move note (fst p) (snd p) mark (g, h) =
  (Ok tt, (place g p mark, note (Made (fst p) (snd p) mark) (place g p mark) h)).
Proof.
  intros Hv. pose proof Hv as Hc. apply valid_true in Hc.
  destruct (setcell_defined _ _ _ _ (value mark) Hc) as [b' Hb'].
  rewrite (place_eq _ _ _ _ Hv Hb').
  apply make_move_empty; assumption.
Qed.

Lemma undo_move_place g h p mark :
  valid g p = true ->
  undo_move note (fst p) (snd p) (place g p mark, h) =
  (Ok tt, (g, note (Undone (fst p) (snd p)) g h)).
Proof.
  intros Hv. pose proof Hv as Hc. apply valid_true in Hc.
  pose proof (place_board g p mark Hv) as Hb.
  pose proof (setcell_back _ _ _ _ _ _ Hc Hb) as Hback.
  assert (Hcell : cell (board (place g p mark)) (fst p) (snd p) = Ok (value mark)).
  { rewrite (place_cell _ _ _ _ _ Hv), !Nat.eqb_refl. reflexivity. }
  assert (Hn : value mark <> " ") by (destruct mark; discriminate).
  rewrite (undo_move_marked note _ h _ _ _ _ Hcell Hn Hback).
  destruct (place_counts g p mark Hv) as [Hx Ho].
  rewrite Hx, Ho. destruct g as [b x o]. simpl.
  destruct mark; simpl;
    replace (x + 1 + -1) with x by lia;
    replace (o + 1 + -1) with o by lia;
    rewrite ?Z.add_0_r; reflexivity.
Qed.

End Methods_on_place.

(** ** Counting the empty cells *)

Lemma filter_length_lt {A} (f f' : A -> bool) (l : list A) x :
  (forall y, f y = true -> f' y = true) ->
  In x l -> f' x = true -> f x = false ->
  (length (filter f l) < length (filter f' l))%nat.
Proof.
  intros Himp. induction l as [|y l IH]; intros Hin Hx Hfx; [contradiction|].
  assert (Hle : forall l0, (length (filter f l0) <= length (filter f' l0))%nat).
  { induction l0 as [|z l0 IH0]; simpl; [lia|].
    destruct (f z) eqn:Ez.
    - rewrite (Himp _ Ez). simpl. lia.
    - destruct (f' z); simpl; lia. }
  simpl. destruct Hin as [->|Hin].
  - rewrite Hx, Hfx. simpl. specialize (Hle l). lia.
  - specialize (IH Hin Hx Hfx).
    destruct (f y) eqn:Ey.
    + rewrite (Himp _ Ey). simpl. lia.
    + destruct (f' y); simpl; lia.
Qed.

Lemma moves_place_lt g p mark :
  wf g -> valid g p = true ->
  (length (moves (place g p mark)) < length (moves g))%nat.
Proof.
  intros Hw Hv. unfold moves.
  apply filter_length_lt with (x := p).
  - intros q Hq. apply (place_valid _ _ _ _ Hv Hq).
  - eapply valid_in_coords; eauto.
  - assumption.
  - destruct (valid (place g p mark) p) eqn:E; [|reflexivity].
    destruct (place_valid _ _ _ _ Hv E) as [_ Hne]. contradiction.
Qed.

Lemma moves_le_9 g : (length (moves g) <= 9)%nat.
Proof.
  unfold moves. etransitivity; [apply filter_length_le|]. reflexivity.
Qed.

(** ** Running commands *)

Lemma bind_Ok {H A B} (m : M (H := H) A) (k : A -> M B) w a w' :
  m w = (Ok a, w') -> bind m k w = k a w'.
Proof. intros E. unfold bind. rewrite E. reflexivity. Qed.

Lemma fold_left_filter {A B} (f : A -> bool) (F : B -> A -> B) l acc :
  fold_left (fun a x => if f x then F a x else a) l acc =
  fold_left F (filter f l) acc.
Proof.
  revert acc. induction l as [|x l IH]; intros acc; simpl; [reflexivity|].
  destruct (f x); simpl; apply IH.
Qed.

(** The search, for any way of recording calls.  [Pre b g] is what is
    known of the grid when the side [b] is to move, and [R h h'] relates
    the record before and after a command; they are chosen below, once to
    follow the pairs of calls and once to follow the counters. *)
Section Search.

Context {H : Type} (note : call -> Grid -> H -> H).
Variable Pre : bool -> Grid -> Prop.
Variable R : Grid -> H -> H -> Prop.

Hypothesis R_refl : forall g h, R g h h.
Hypothesis R_trans : forall g h1 h2 h3, R g h1 h2 -> R g h2 h3 -> R g h1 h3.
Hypothesis Pre_step :
  forall b g p, wf g -> Pre b g -> valid g p = true ->
                Pre (negb b) (place g p (mover b)).
Hypothesis R_pair :
  forall b g p h h1, wf g -> Pre b g -> valid g p = true ->
    R (place g p (mover b))
      (note (Made (fst p) (snd p) (mover b)) (place g p (mover b)) h) h1 ->
    R g h (note (Undone (fst p) (snd p)) g h1).

Lemma for_computes {A B} (l : list A) (body : A -> B -> M B)
      (F : B -> A -> B) g :
  (forall x acc, In x l -> computes R (body x acc) g (F acc x)) ->
  forall acc, computes R (for_ l acc body) g (fold_left F l acc).
Proof.
  induction l as [|x l IH]; intros Hbody acc h; simpl.
  - exists h. split; [reflexivity|apply R_refl].
  - destruct (Hbody x acc (or_introl eq_refl) h) as (h1 & E1 & R1).
    rewrite (bind_Ok _ _ _ _ _ E1).
    destruct (IH (fun y a Hy => Hbody y a (or_intror Hy)) (F acc x) h1)
      as (h2 & E2 & R2).
    exists h2. split; [assumption|eapply R_trans; eauto].
Qed.

Lemma for_grid_computes {B} (body : nat -> nat -> B -> M B)
      (F : B -> nat * nat -> B) g :
  (forall p acc, In p coords -> computes R (body (fst p) (snd p) acc) g (F acc p)) ->
  forall acc,
    computes R
      (for_ (range 3) acc (fun row best =>
         for_ (range 3) best (fun col best => body row col best)))
      g (fold_left F coords acc).
Proof.
  intros Hbody acc.
  change (fold_left F coords acc) with
    (fold_left (fun a row => fold_left (fun a col => F a (row, col)) (range 3) a)
               (range 3) acc).
  apply for_computes. intros row a Hrow.
  apply for_computes with (F := fun a col => F a (row, col)).
  intros col a' Hcol.
  apply (Hbody (row, col) a').
  unfold coords. apply in_prod; assumption.
Qed.

(** One turn of the inner loop of [minimax]: try the cell, search below
    it, take the move back. *)
Lemma try_cell_computes (sub : M number) b g p (v : number)
      (combine : number -> number -> number) best :
  wf g -> Pre b g -> In p coords ->
  (valid g p = true ->
   forall h, exists h', sub (place g p (mover b), h)
                        = (Ok v, (place g p (mover b), h'))
                        /\ R (place g p (mover b)) h h') ->
  computes R
    (bind (query (fun g => is_valid_move g (fst p) (snd p))) (fun ok =>
       if ok then
         bind (make_move note (fst p) (snd p) (mover b)) (fun _ =>
         bind sub (fun val =>
         bind (undo_move note (fst p) (snd p)) (fun _ =>
         ret (combine best val))))
       else ret best))
    g (if valid g p then combine best v else best).
Proof.
  intros Hw HP Hp Hsub h.
  rewrite (bind_Ok _ _ _ (valid g p) (g, h))
    by (unfold query; simpl; rewrite (is_valid_move_wf g p Hw Hp); reflexivity).
  destruct (valid g p) eqn:Hv.
  - rewrite (bind_Ok _ _ _ _ _ (make_move_valid note g h p (mover b) Hv)).
    destruct (Hsub eq_refl (note (Made (fst p) (snd p) (mover b)) (place g p (mover b)) h))
      as (h1 & E1 & R1).
    rewrite (bind_Ok _ _ _ _ _ E1).
    rewrite (bind_Ok _ _ _ _ _ (undo_move_place note g h1 p (mover b) Hv)).
    eexists. split; [reflexivity|].
    eapply R_pair; eauto.
  - exists h. split; [reflexivity|apply R_refl].
Qed.

Lemma minimax_rec_value fuel :
  forall g depth b,
    wf g -> (length (moves g) < fuel)%nat -> Pre b g ->
    computes R (minimax_rec note fuel depth b) g (value_of fuel g b).
Proof.
  induction fuel as [|f IH]; intros g depth b Hw Hlt HP; [lia|].
  intros h. cbn [minimax_rec value_of].
  rewrite (bind_Ok _ _ _ (terminal g) (g, h))
    by (unfold query; simpl; rewrite (is_terminal_state_wf g Hw); reflexivity).
  destruct (terminal g).
  - rewrite (bind_Ok _ _ _ (eval g) (g, h))
      by (unfold query; simpl; rewrite (evaluate_wf g Hw); reflexivity).
    exists h. split; [reflexivity|apply R_refl].
  - assert (Hsub : forall p, valid g p = true ->
              forall h0, exists h', minimax_rec note f (depth + 1) (negb b)
                                      (place g p (mover b), h0)
                        = (Ok (value_of f (place g p (mover b)) (negb b)),
                           (place g p (mover b), h'))
                        /\ R (place g p (mover b)) h0 h').
    { intros p Hv. apply IH.
      - apply place_wf; assumption.
      - pose proof (moves_place_lt g p (mover b) Hw Hv). lia.
      - apply Pre_step; assumption. }
    destruct b; cbn [mover negb pick worst] in *.
    + apply (for_grid_computes
               (fun row col best_val =>
                  bind (query (fun g => is_valid_move g row col)) (fun ok =>
                    if ok then
                      bind (make_move note row col X) (fun _ =>
                      bind (minimax_rec note f (depth + 1) false) (fun val =>
                      bind (undo_move note row col) (fun _ =>
                      ret (py_max best_val val))))
                    else ret best_val))
               (fun best p =>
                  if valid g p
                  then py_max best (value_of f (place g p X) false)
                  else best)).
      intros p acc Hp.
      apply (try_cell_computes _ true g p _ py_max acc Hw HP Hp (Hsub p)).
    + apply (for_grid_computes
               (fun row col best_val =>
                  bind (query (fun g => is_valid_move g row col)) (fun ok =>
                    if ok then
                      bind (make_move note row col O) (fun _ =>
                      bind (minimax_rec note f (depth + 1) true) (fun val =>
                      bind (undo_move note row col) (fun _ =>
                      ret (py_min best_val val))))
                    else ret best_val))
               (fun best p =>
                  if valid g p
                  then py_min best (value_of f (place g p O) true)
                  else best)).
      intros p acc Hp.
      apply (try_cell_computes _ false g p _ py_min acc Hw HP Hp (Hsub p)).
Qed.

Lemma minimax_value g depth b :
  wf g -> Pre b g ->
  computes R (minimax note depth b) g (value_of 10 g b).
Proof.
  intros Hw HP. apply minimax_rec_value; [assumption| |assumption].
  pose proof (moves_le_9 g). lia.
Qed.

Lemma find_best_move_value g :
  wf g -> Pre true g -> computes R (find_best_move note) g (best_move g).
Proof.
  intros Hw HP h. unfold find_best_move.
  set (sc := fun p => value_of 10 (place g p X) false).
  destruct (for_grid_computes
              (fun row col acc =>
                 bind (query (fun g => is_valid_move g row col)) (fun ok =>
                   if ok then
                     bind (make_move note row col X) (fun _ =>
                     bind (minimax note 0 false) (fun val =>
                     bind (undo_move note row col) (fun _ =>
                     if gt val (snd acc) then ret (Some (row, col), val)
                     else ret acc)))
                   else ret acc))
              (fun acc p => if valid g p then keep_best sc acc p else acc) g)
    with (acc := (@None (nat * nat), NegInf)) (h := h) as (h' & E & HR).
  - intros p acc Hp h0.
    rewrite (bind_Ok _ _ _ (valid g p) (g, h0))
      by (unfold query; simpl; rewrite (is_valid_move_wf g p Hw Hp); reflexivity).
    destruct (valid g p) eqn:Hv.
    + rewrite (bind_Ok _ _ _ _ _ (make_move_valid note g h0 p X Hv)).
      destruct (minimax_value (place g p X) 0 false (place_wf g p X Hw Hv)
                  (Pre_step true g p Hw HP Hv)
                  (note (Made (fst p) (snd p) X) (place g p X) h0))
        as (h1 & E1 & R1).
      rewrite (bind_Ok _ _ _ _ _ E1).
      rewrite (bind_Ok _ _ _ _ _ (undo_move_place note g h1 p X Hv)).
      unfold keep_best. fold (sc p).
      exists (note (Undone (fst p) (snd p)) g h1).
      split.
      * destruct (gt (sc p) (snd acc)); destruct p; reflexivity.
      * eapply (R_pair true); eauto.
    + exists h0. split; [reflexivity|apply R_refl].
  - rewrite (bind_Ok _ _ _ _ _ E).
    exists h'. split; [|assumption].
    unfold ret, best_move, moves. rewrite <- fold_left_filter. reflexivity.
Qed.

End Search.

(** ** The search on the program alone *)

Lemma minimax_any {H} (note : call -> Grid -> H -> H) g depth b h :
  wf g ->
  exists h', minimax note depth b (g, h) = (Ok (value_of 10 g b), (g, h')).
Proof.
  intros Hw.
  destruct (minimax_value note any_grid any_record) with (g := g) (depth := depth)
    (b := b) (h := h) as (h' & E & _); unfold any_grid, any_record; auto.
  eauto.
Qed.

Lemma find_best_move_any {H} (note : call -> Grid -> H -> H) g h :
  wf g -> exists h', find_best_move note (g, h) = (Ok (best_move g), (g, h')).
Proof.
  intros Hw.
  destruct (find_best_move_value note any_grid any_record) with (g := g) (h := h)
    as (h' & E & _); unfold any_grid, any_record; auto.
  eauto.
Qed.

Lemma run_minimax g depth b :
  wf g -> run (minimax silent depth b) g = (Ok (value_of 10 g b), g).
Proof.
  intros Hw. unfold run.
  destruct (minimax_any silent g depth b tt Hw) as (h' & ->). reflexivity.
Qed.

Lemma run_find_best_move g :
  wf g -> run (find_best_move silent) g = (Ok (best_move g), g).
Proof.
  intros Hw. unfold run.
  destruct (find_best_move_any silent g tt Hw) as (h' & ->). reflexivity.
Qed.

Lemma score_after_value g p :
  wf g -> valid g p = true -> score_after g p = value_of 10 (place g p X) false.
Proof.
  intros Hw Hv. unfold score_after.
  rewrite run_minimax by (apply place_wf; assumption). reflexivity.
Qed.

(** ** The search with its history *)

Lemma nested_app g t1 t2 : nested g t1 -> nested g t2 -> nested g (t1 ++ t2).
Proof.
  intros H1 H2. induction H1 as [g|g p mark tr1 tr2 Hv Hn1 IH1 Hn2 IH2].
  - assumption.
  - simpl. rewrite <- app_assoc. simpl.
    apply nested_pair; auto.
Qed.

Section History.

Variable Pre : bool -> Grid -> Prop.
Variable Good : Grid -> Prop.

Hypothesis Pre_step :
  forall b g p, wf g -> Pre b g -> valid g p = true ->
                Pre (negb b) (place g p (mover b)).
Hypothesis Pre_good : forall b g, Pre b g -> Good g.

Lemma grows_refl g h : grows Good g h h.
Proof.
  exists []. rewrite app_nil_r. repeat split; constructor.
Qed.

Lemma grows_trans g h1 h2 h3 :
  grows Good g h1 h2 -> grows Good g h2 h3 -> grows Good g h1 h3.
Proof.
  intros (t1 & -> & N1 & F1) (t2 & -> & N2 & F2).
  exists (t1 ++ t2). rewrite app_assoc. repeat split.
  - apply nested_app; assumption.
  - apply Forall_app; split; assumption.
Qed.

Lemma grows_pair b g p h h1 :
  wf g -> Pre b g -> valid g p = true ->
  grows Good (place g p (mover b))
        (record (Made (fst p) (snd p) (mover b)) (place g p (mover b)) h) h1 ->
  grows Good g h (record (Undone (fst p) (snd p)) g h1).
Proof.
  intros Hw HP Hv (t1 & -> & N1 & F1). unfold record.
  exists ((Made (fst p) (snd p) (mover b), place g p (mover b))
            :: t1 ++ [(Undone (fst p) (snd p), g)]).
  repeat split.
  - rewrite <- !app_assoc. reflexivity.
  - apply nested_pair; [assumption|assumption|constructor].
  - constructor.
    + simpl. eapply Pre_good. apply Pre_step; eassumption.
    + apply Forall_app; split; [assumption|].
      constructor; [|constructor]. simpl. eapply Pre_good; eassumption.
Qed.

Lemma minimax_history g depth b h :
  wf g -> Pre b g ->
  exists tr,
    minimax record depth b (g, h) = (Ok (value_of 10 g b), (g, h ++ tr)) /\
    nested g tr /\ Forall (fun e => Good (snd e)) tr.
Proof.
  intros Hw HP.
  destruct (minimax_value record Pre (grows Good) grows_refl grows_trans
              Pre_step grows_pair g depth b Hw HP h)
    as (h' & E & tr & -> & N & F).
  eauto.
Qed.

Lemma find_best_move_history g h :
  wf g -> Pre true g ->
  exists tr,
    find_best_move record (g, h) = (Ok (best_move g), (g, h ++ tr)) /\
    nested g tr /\ Forall (fun e => Good (snd e)) tr.
Proof.
  intros Hw HP.
  destruct (find_best_move_value record Pre (grows Good) grows_refl grows_trans
              Pre_step grows_pair g Hw HP h)
    as (h' & E & tr & -> & N & F).
  eauto.
Qed.

End History.

(** ** The order on scores *)

Ltac num_crush :=
  unfold le, pick, worst, py_max, py_min, gt in *;
  repeat match goal with
         | n : number |- _ => destruct n
         | b : bool |- _ => destruct b
         end;
  repeat match goal with
         | H : context [(?x <? ?y)] |- _ => destruct (Z.ltb_spec x y)
         | |- context [(?x <? ?y)] => destruct (Z.ltb_spec x y)
         end;
  try congruence; try reflexivity; try lia.

Lemma gt_trans a b c : gt a b = true -> gt b c = true -> gt a c = true.
Proof. intros; num_crush. Qed.

Lemma gt_le_trans a b c : gt a b = true -> le c b -> gt a c = true.
Proof. intros; num_crush. Qed.

Lemma le_antisym a b : le a b -> le b a -> a = b.
Proof. intros; num_crush. f_equal. lia. Qed.

Lemma le_py_max_l x a b : le x a -> le x (py_max a b).
Proof. intros; num_crush. Qed.

Lemma le_py_max_r x a b : le x b -> le x (py_max a b).
Proof. intros; num_crush. Qed.

Lemma py_max_le x a b : le a x -> le b x -> le (py_max a b) x.
Proof. intros; num_crush. Qed.

Lemma le_py_min x a b : le x a -> le x b -> le x (py_min a b).
Proof. intros; num_crush. Qed.

Lemma py_min_le_l x a b : le a x -> le (py_min a b) x.
Proof. intros; num_crush. Qed.

Lemma py_min_le_r x a b : le b x -> le (py_min a b) x.
Proof. intros; num_crush. Qed.

Lemma pick_bounded b a x :
  bounded x -> a = worst b \/ bounded a -> bounded (pick b a x).
Proof.
  intros (z & -> & Hz) [->|(y & -> & Hy)].
  - exists z. split; [destruct b; reflexivity|assumption].
  - destruct b; cbn [pick]; unfold py_max, py_min, gt;
      destruct (Z.ltb_spec y z); try destruct (Z.ltb_spec z y);
      eexists; split; try reflexivity; assumption.
Qed.

Lemma fold_pick_bounded {A} (v : A -> number) b l :
  (forall p, In p l -> bounded (v p)) ->
  forall acc,
    (acc = worst b /\ l <> []) \/ bounded acc ->
    bounded (fold_left (fun a p => pick b a (v p)) l acc).
Proof.
  induction l as [|x l IH]; intros Hv acc Hacc; simpl.
  - destruct Hacc as [[_ Hn]|Hb]; [contradiction|assumption].
  - apply IH; [intros p Hp; apply Hv; right; assumption|].
    right. apply pick_bounded; [apply Hv; left; reflexivity|].
    destruct Hacc as [[-> _]|Hb]; auto.
Qed.

(** ** The value of a position *)

Lemma value_of_eq fuel g b :
  value_of (S fuel) g b =
  if terminal g then Int (eval g)
  else fold_left (fun best p => pick b best (value_of fuel (place g p (mover b)) (negb b)))
                 (moves g) (worst b).
Proof.
  cbn [value_of]. destruct (terminal g); [reflexivity|].
  unfold moves. rewrite <- fold_left_filter. reflexivity.
Qed.

Lemma not_terminal_moves g : wf g -> terminal g = false -> moves g <> [].
Proof.
  intros Hw Ht. destruct (wf_board_inv _ Hw) as (a0&a1&a2&b0&b1&b2&c0&c1&c2&Hb).
  unfold terminal in Ht.
  rewrite (is_terminal_state_explicit _ _ _ _ _ _ _ _ _ _ Hb) in Ht.
  apply orb_false_iff in Ht. destruct Ht as [_ Hf].
  assert (Hex : exists p, In p coords /\ valid g p = true).
  { unfold blank in Hf.
    repeat (apply andb_false_iff in Hf; destruct Hf as [Hf|Hf]);
      apply negb_false_iff, String.eqb_eq in Hf; subst;
      [ exists (0, 0)%nat | exists (0, 1)%nat | exists (0, 2)%nat
      | exists (1, 0)%nat | exists (1, 1)%nat | exists (1, 2)%nat
      | exists (2, 0)%nat | exists (2, 1)%nat | exists (2, 2)%nat ];
      (split; [apply in_coords; simpl; lia
              |apply valid_true; rewrite Hb; reflexivity]). }
  destruct Hex as (p & Hp & Hv). intros Hm.
  assert (In p (moves g)) by (apply filter_In; auto).
  rewrite Hm in H. contradiction.
Qed.

Lemma value_of_bounded fuel :
  forall g b, wf g -> (length (moves g) < fuel)%nat -> bounded (value_of fuel g b).
Proof.
  induction fuel as [|f IH]; intros g b Hw Hlt; [lia|].
  rewrite value_of_eq. destruct (terminal g) eqn:Ht.
  - exists (eval g). split; [reflexivity|apply eval_range; assumption].
  - apply fold_pick_bounded
      with (v := fun p => value_of f (place g p (mover b)) (negb b)).
    + intros p Hp. apply in_moves in Hp; [|assumption]. apply IH.
      * apply place_wf; assumption.
      * pose proof (moves_place_lt g p (mover b) Hw Hp). lia.
    + left. split; [reflexivity|apply not_terminal_moves; assumption].
Qed.

(** ** The move kept by [find_best_move] *)

Lemma keep_best_first sc l2 :
  (forall p, In p l2 -> exists z, sc p = Int z) ->
  forall l1 acc,
    (acc = (None, NegInf) /\ l1 = []) \/
    (exists p, acc = (Some p, sc p) /\ first_best sc l1 (Some p)) ->
    first_best sc (l1 ++ l2) (fst (fold_left (keep_best sc) l2 acc)).
Proof.
  induction l2 as [|x l2 IH]; intros Hfin l1 acc Hacc.
  - simpl. rewrite app_nil_r.
    destruct Hacc as [[-> ->]|(p & -> & Hp)]; [reflexivity|assumption].
  - simpl. replace (l1 ++ x :: l2) with ((l1 ++ [x]) ++ l2)
      by (rewrite <- app_assoc; reflexivity).
    apply IH; [intros p Hp; apply Hfin; right; assumption|].
    right. destruct (Hfin x (or_introl eq_refl)) as [z Hz].
    destruct Hacc as [[-> ->]|(p & -> & la & lb & -> & Hla & Hlb)].
    + exists x. unfold keep_best. simpl. rewrite Hz. simpl. split; [reflexivity|].
      exists [], []. repeat split; intros q [].
    + unfold keep_best. cbn [snd].
      destruct (gt (sc x) (sc p)) eqn:Hgt.
      * exists x. split; [reflexivity|].
        exists (la ++ p :: lb), []. repeat split; [|intros q []].
        intros q Hq. apply in_app_or in Hq. destruct Hq as [Hq|[<-|Hq]].
        -- eapply gt_trans; [exact Hgt|apply Hla; assumption].
        -- assumption.
        -- eapply gt_le_trans; [exact Hgt|apply Hlb; assumption].
      * exists p. split; [reflexivity|].
        exists la, (lb ++ [x]). repeat split.
        -- rewrite <- app_assoc. reflexivity.
        -- assumption.
        -- intros q Hq. apply in_app_or in Hq. destruct Hq as [Hq|[<-|[]]].
           ++ apply Hlb; assumption.
           ++ assumption.
Qed.

Lemma best_move_first g :
  wf g -> first_best (score_after g) (moves g) (best_move g).
Proof.
  intros Hw.
  assert (Hsc : forall p, In p (moves g) ->
                          value_of 10 (place g p X) false = score_after g p).
  { intros p Hp. symmetry. apply score_after_value; [assumption|].
    apply in_moves; assumption. }
  unfold best_move.
  assert (Hfold : forall l acc,
             (forall p, In p l -> In p (moves g)) ->
             fold_left (keep_best (fun p => value_of 10 (place g p X) false)) l acc
             = fold_left (keep_best (score_after g)) l acc).
  { induction l as [|x l IH]; intros acc Hl; cbn [fold_left]; [reflexivity|].
    rewrite IH by (intros; apply Hl; right; assumption).
    unfold keep_best. rewrite (Hsc x) by (apply Hl; left; reflexivity).
    reflexivity. }
  rewrite Hfold by auto.
  apply (keep_best_first (score_after g) (moves g)) with (l1 := []).
  - intros p Hp. rewrite <- (Hsc p Hp).
    pose proof Hp as Hv. apply in_moves in Hv; [|assumption].
    destruct (value_of_bounded 10 (place g p X) false) as (z & Hz & _).
    + apply place_wf; assumption.
    + pose proof (moves_place_lt g p X Hw Hv). pose proof (moves_le_9 g). lia.
    + eauto.
  - left. split; reflexivity.
Qed.

(** ** Bounds on the value from one side's moves *)

Lemma some_of_true {A} (f : A -> bool) l :
  some_of f l = true -> exists x, In x l /\ f x = true.
Proof.
  induction l as [|x l IH]; simpl; [discriminate|].
  destruct (f x) eqn:E; intros Hs.
  - exists x. auto.
  - destruct (IH Hs) as (y & Hy & Hfy). exists y. auto.
Qed.

Lemma each_of_true {A} (f : A -> bool) l :
  each_of f l = true -> forall x, In x l -> f x = true.
Proof.
  induction l as [|x l IH]; simpl; [intros _ y []|].
  destruct (f x) eqn:E; [|discriminate].
  intros He y [<-|Hy]; auto.
Qed.

Lemma fold_max_reach (v : nat * nat -> number) (ok : nat * nat -> bool) x l :
  forall acc,
    le x acc \/ (exists p, In p l /\ ok p = true /\ le x (v p)) ->
    le x (fold_left (fun best p => if ok p then py_max best (v p) else best) l acc).
Proof.
  induction l as [|y l IH]; intros acc Hx; simpl.
  - destruct Hx as [Hx|(p & [] & _)]. assumption.
  - apply IH. destruct Hx as [Hx|(p & [<-|Hp] & Hok & Hv)].
    + left. destruct (ok y); [apply le_py_max_l|]; assumption.
    + left. rewrite Hok. apply le_py_max_r. assumption.
    + right. eauto.
Qed.

Lemma fold_min_reach (v : nat * nat -> number) (ok : nat * nat -> bool) x l :
  (forall p, In p l -> ok p = true -> le x (v p)) ->
  forall acc,
    le x acc ->
    le x (fold_left (fun best p => if ok p then py_min best (v p) else best) l acc).
Proof.
  induction l as [|y l IH]; intros Hv acc Hx; simpl; [assumption|].
  apply IH; [intros p Hp; apply Hv; right; assumption|].
  destruct (ok y) eqn:Hok; [|assumption].
  apply le_py_min; [assumption|]. apply Hv; [left; reflexivity|assumption].
Qed.

Lemma fold_max_stay (v : nat * nat -> number) (ok : nat * nat -> bool) x l :
  (forall p, In p l -> ok p = true -> le (v p) x) ->
  forall acc,
    le acc x ->
    le (fold_left (fun best p => if ok p then py_max best (v p) else best) l acc) x.
Proof.
  induction l as [|y l IH]; intros Hv acc Hx; simpl; [assumption|].
  apply IH; [intros p Hp; apply Hv; right; assumption|].
  destruct (ok y) eqn:Hok; [|assumption].
  apply py_max_le; [assumption|]. apply Hv; [left; reflexivity|assumption].
Qed.

Lemma fold_min_stay (v : nat * nat -> number) (ok : nat * nat -> bool) x l :
  forall acc,
    le acc x \/ (exists p, In p l /\ ok p = true /\ le (v p) x) ->
    le (fold_left (fun best p => if ok p then py_min best (v p) else best) l acc) x.
Proof.
  induction l as [|y l IH]; intros acc Hx; simpl.
  - destruct Hx as [Hx|(p & [] & _)]. assumption.
  - apply IH. destruct Hx as [Hx|(p & [<-|Hp] & Hok & Hv)].
    + left. destruct (ok y); [apply py_min_le_l|]; assumption.
    + left. rewrite Hok. apply py_min_le_r. assumption.
    + right. eauto.
Qed.

Lemma reaches_sound fuel :
  forall z g b, reaches fuel z g b = true -> le (Int z) (value_of fuel g b).
Proof.
  induction fuel as [|f IH]; intros z g b Hr; [discriminate|].
  cbn [reaches value_of] in *. destruct (terminal g).
  - unfold le, gt. apply Z.leb_le in Hr. apply Z.ltb_ge. assumption.
  - destruct b; cbn [pick mover negb worst].
    + apply some_of_true in Hr. destruct Hr as (p & Hp & Hr).
      destruct (valid g p) eqn:Hv; [|discriminate].
      apply fold_max_reach with (v := fun p => value_of f (place g p X) false).
      right. exists p. auto.
    + apply fold_min_reach with (v := fun p => value_of f (place g p O) true);
        [|reflexivity].
      intros p Hp Hv. apply IH.
      pose proof (each_of_true _ _ Hr p Hp) as Hr'. cbv beta in Hr'.
      rewrite Hv in Hr'. assumption.
Qed.

Lemma stays_sound fuel :
  forall z g b, stays fuel z g b = true -> le (value_of fuel g b) (Int z).
Proof.
  induction fuel as [|f IH]; intros z g b Hr; [discriminate|].
  cbn [stays value_of] in *. destruct (terminal g).
  - unfold le, gt. apply Z.leb_le in Hr. apply Z.ltb_ge. assumption.
  - destruct b; cbn [pick mover negb worst].
    + apply fold_max_stay with (v := fun p => value_of f (place g p X) false);
        [|reflexivity].
      intros p Hp Hv. apply IH.
      pose proof (each_of_true _ _ Hr p Hp) as Hr'. cbv beta in Hr'.
      rewrite Hv in Hr'. assumption.
    + apply some_of_true in Hr. destruct Hr as (p & Hp & Hr).
      destruct (valid g p) eqn:Hv; [|discriminate].
      apply fold_min_stay with (v := fun p => value_of f (place g p O) true).
      right. exists p. auto.
Qed.

Lemma value_of_exact fuel z g b :
  reaches fuel z g b = true -> stays fuel z g b = true ->
  value_of fuel g b = Int z.
Proof.
  intros Hr Hs. apply le_antisym.
  - apply stays_sound. assumption.
  - apply reaches_sound. assumption.
Qed.

(** * The grid *)

Lemma wf_Grid_init : wf Grid_init.
Proof. split; [reflexivity|repeat constructor]. Qed.

Lemma wf_row_to_win : wf row_to_win.
Proof. split; [reflexivity|repeat constructor]. Qed.

Lemma wf_both_lines : wf both_lines.
Proof. split; [reflexivity|repeat constructor]. Qed.

(** C2: on every 3x3 board [is_terminal_state] answers, and it answers
    true exactly when no cell is empty or one of the eight lines holds
    three times the same non-empty mark. *)
Theorem is_terminal_state_iff g :
  wf g ->
  exists t, is_terminal_state g = Ok t /\
    (t = true <->
     full (board g) \/ exists s, s <> " " /\ completed (board g) s).
Proof.
  intros Hw. destruct (wf_board_inv _ Hw) as (a0&a1&a2&b0&b1&b2&c0&c1&c2&Hb).
  rewrite (is_terminal_state_explicit _ _ _ _ _ _ _ _ _ _ Hb).
  eexists. split; [reflexivity|].
  rewrite (full_explicit _ _ _ _ _ _ _ _ _ _ Hb).
  rewrite (marked_line_explicit _ _ _ _ _ _ _ _ _ _ Hb).
  rewrite orb_true_iff. tauto.
Qed.

Lemma is_terminal_state_iff_witness :
  wf row_to_win /\
  exists t, is_terminal_state row_to_win = Ok t /\
    (t = true <->
     full (board row_to_win) \/
     exists s, s <> " " /\ completed (board row_to_win) s).
Proof.
  split; [exact wf_row_to_win|].
  apply (is_terminal_state_iff row_to_win). exact wf_row_to_win.
Defined.

(** C3, as stated, fails on a board with a line of each mark: a line is all
    O there, and [evaluate] returns 1. *)
Lemma evaluate_both_lines_counterexample :
  wf both_lines /\
  (exists s, s <> " " /\ completed (board both_lines) s) /\
  ~ (evaluate both_lines = Ok (-1) <-> completed (board both_lines) "O").
Proof.
  assert (Ho : completed (board both_lines) "O").
  { exists ((1, 0), (1, 1), (1, 2))%nat. split; [simpl; tauto|].
    cbn. auto. }
  split; [exact wf_both_lines|]. split.
  - exists "O". split; [discriminate|exact Ho].
  - intros [_ Hback]. specialize (Hback Ho). discriminate.
Qed.

(** C3, amended: on every 3x3 board [evaluate] returns 1 exactly when some
    line is all X, and -1 exactly when some line is all O and none is all X;
    on a full board with no completed line it returns 0. *)
Theorem evaluate_by_lines g :
  wf g ->
  (evaluate g = Ok 1 <-> completed (board g) "X") /\
  (evaluate g = Ok (-1) <->
   completed (board g) "O" /\ ~ completed (board g) "X") /\
  (full (board g) ->
   (forall s, s <> " " -> ~ completed (board g) s) ->
   evaluate g = Ok 0).
Proof.
  intros Hw. destruct (evaluate_lines g Hw) as (z & E & H1 & H2 & H3).
  rewrite E. repeat split.
  - intros Hz. apply H1. congruence.
  - intros Hc. f_equal. apply H1. assumption.
  - apply H2. congruence.
  - apply H2. congruence.
  - intros Hc. f_equal. apply H2. assumption.
  - intros _ Hn. f_equal. apply H3. split; apply Hn; discriminate.
Qed.

Lemma evaluate_by_lines_witness :
  wf both_lines /\
  ((evaluate both_lines = Ok 1 <-> completed (board both_lines) "X") /\
   (evaluate both_lines = Ok (-1) <->
    completed (board both_lines) "O" /\ ~ completed (board both_lines) "X") /\
   (full (board both_lines) ->
    (forall s, s <> " " -> ~ completed (board both_lines) s) ->
    evaluate both_lines = Ok 0)).
Proof.
  split; [exact wf_both_lines|].
  apply (evaluate_by_lines both_lines). exact wf_both_lines.
Defined.

(** C10: when X and O both have a completed line, [evaluate] returns 1. *)
Theorem evaluate_x_first g :
  wf g ->
  completed (board g) "X" -> completed (board g) "O" ->
  evaluate g = Ok 1.
Proof.
  intros Hw Hx _. destruct (evaluate_lines g Hw) as (z & E & H1 & _).
  rewrite E. f_equal. apply H1. assumption.
Qed.

Lemma completed_both_lines_X : completed (board both_lines) "X".
Proof.
  exists ((0, 0), (0, 1), (0, 2))%nat. split; [simpl; tauto|]. cbn. auto.
Qed.

Lemma completed_both_lines_O : completed (board both_lines) "O".
Proof.
  exists ((1, 0), (1, 1), (1, 2))%nat. split; [simpl; tauto|]. cbn. auto.
Qed.

Lemma evaluate_x_first_witness :
  (wf both_lines /\ completed (board both_lines) "X" /\
   completed (board both_lines) "O") /\
  evaluate both_lines = Ok 1.
Proof.
  split.
  - split; [exact wf_both_lines|].
    split; [exact completed_both_lines_X|exact completed_both_lines_O].
  - apply (evaluate_x_first both_lines).
    + exact wf_both_lines.
    + exact completed_both_lines_X.
    + exact completed_both_lines_O.
Defined.

(** C4: on an empty cell, [make_move] followed by [undo_move] on the same
    cell gives back the grid as it was: the same board and the same two
    counters. *)
Theorem make_then_undo g row col mark :
  cell (board g) row col = Ok " " ->
  run (bind (make_move silent row col mark) (fun _ => undo_move silent row col)) g
  = (Ok tt, g).
Proof.
  intros Hc. unfold run.
  assert (Hv : valid g (row, col) = true) by (apply valid_true; exact Hc).
  rewrite (bind_Ok _ _ _ _ _ (make_move_valid silent g tt (row, col) mark Hv)).
  rewrite (undo_move_place silent g _ (row, col) mark Hv). reflexivity.
Qed.

Lemma make_then_undo_witness :
  cell (board row_to_win) 0 2 = Ok " " /\
  run (bind (make_move silent 0 2 X) (fun _ => undo_move silent 0 2)) row_to_win
  = (Ok tt, row_to_win).
Proof.
  split; [reflexivity|].
  apply (make_then_undo row_to_win 0 2 X). reflexivity.
Defined.

Lemma undo_move_total g row col :
  wf g -> (row < 3)%nat -> (col < 3)%nat ->
  exists g', run (undo_move silent row col) g = (Ok tt, g').
Proof.
  intros Hw Hr Hc. destruct (cell_wf _ _ _ Hw Hr Hc) as [s Hs]. unfold run.
  destruct (String.eqb_spec s " ") as [->|Hn].
  - rewrite (undo_move_blank silent g tt _ _ Hs). eauto.
  - destruct (setcell_defined _ _ _ _ " " Hs) as [b' Hb'].
    rewrite (undo_move_marked silent g tt _ _ _ _ Hs Hn Hb'). eauto.
Qed.

(** C8: on a 3x3 board and a cell in range, [make_move] raises the
    invalid-move error exactly when the cell is not empty, and then leaves
    the grid as it was; on an empty cell it writes the mark there, changes
    no other cell, and adds one to the counter of that mark only.  The
    other operations raise nothing. *)
Theorem make_move_raises g row col mark :
  wf g -> (row < 3)%nat -> (col < 3)%nat ->
  let r := run (make_move silent row col mark) g in
  (fst r = Raise (ValueError "Invalid move") <->
   cell (board g) row col <> Ok " ") /\
  (cell (board g) row col <> Ok " " -> snd r = g) /\
  (cell (board g) row col = Ok " " ->
   fst r = Ok tt /\
   cell (board (snd r)) row col = Ok (value mark) /\
   (forall r' c', (r', c') <> (row, col) ->
                  cell (board (snd r)) r' c' = cell (board g) r' c') /\
   x_count (snd r) = x_count g + (if Mark_eqb mark X then 1 else 0) /\
   o_count (snd r) = o_count g + (if Mark_eqb mark X then 0 else 1)) /\
  (exists b, is_valid_move g row col = Ok b) /\
  (exists g', run (undo_move silent row col) g = (Ok tt, g')) /\
  (exists t, is_terminal_state g = Ok t) /\
  (exists z, evaluate g = Ok z) /\
  (forall depth b, exists v, run (minimax silent depth b) g = (Ok v, g)) /\
  (exists m, run (find_best_move silent) g = (Ok m, g)).
Proof.
  intros Hw Hr Hc r. subst r.
  destruct (cell_wf _ _ _ Hw Hr Hc) as [s Hs].
  assert (Hrun : forall s', cell (board g) row col = Ok s' -> s' <> " " ->
            run (make_move silent row col mark) g
            = (Raise (ValueError "Invalid move"), g)).
  { intros s' Hs' Hn. unfold run.
    rewrite (make_move_taken silent g tt _ _ mark _ Hs' Hn). reflexivity. }
  assert (Hemp : cell (board g) row col = Ok " " ->
            run (make_move silent row col mark) g
            = (Ok tt, place g (row, col) mark)).
  { intros He. unfold run.
    assert (Hv : valid g (row, col) = true) by (apply valid_true; exact He).
    pose proof (make_move_valid silent g tt (row, col) mark Hv) as E.
    cbn [fst snd] in E. rewrite E. reflexivity. }
  repeat split.
  - intros Hraise He. rewrite (Hemp He) in Hraise. discriminate.
  - intros Hne. rewrite (Hrun s Hs); [reflexivity|]. congruence.
  - intros Hne. rewrite (Hrun s Hs); [reflexivity|]. congruence.
  - rewrite (Hemp H). reflexivity.
  - rewrite (Hemp H). cbn [snd].
    rewrite place_cell by (apply valid_true; exact H).
    cbn [fst snd]. rewrite !Nat.eqb_refl. reflexivity.
  - intros r' c' Hne. rewrite (Hemp H). cbn [snd].
    rewrite place_cell by (apply valid_true; exact H).
    cbn [fst snd].
    destruct (Nat.eqb_spec row r'); destruct (Nat.eqb_spec col c');
      try reflexivity. subst. contradiction.
  - rewrite (Hemp H). cbn [snd].
    apply (place_counts g (row, col) mark). apply valid_true; exact H.
  - rewrite (Hemp H). cbn [snd].
    apply (place_counts g (row, col) mark). apply valid_true; exact H.
  - unfold is_valid_move. rewrite Hs. simpl. eauto.
  - apply undo_move_total; assumption.
  - rewrite (is_terminal_state_wf g Hw). eauto.
  - rewrite (evaluate_wf g Hw). eauto.
  - intros depth b. rewrite (run_minimax g depth b Hw). eauto.
  - rewrite (run_find_best_move g Hw). eauto.
Qed.

Lemma make_move_raises_witness :
  (wf row_to_win /\ (0 < 3)%nat /\ (1 < 3)%nat) /\
  let r := run (make_move silent 0 1 O) row_to_win in
  (fst r = Raise (ValueError "Invalid move") <->
   cell (board row_to_win) 0 1 <> Ok " ") /\
  (cell (board row_to_win) 0 1 <> Ok " " -> snd r = row_to_win) /\
  (cell (board row_to_win) 0 1 = Ok " " ->
   fst r = Ok tt /\
   cell (board (snd r)) 0 1 = Ok (value O) /\
   (forall r' c', (r', c') <> (0, 1)%nat ->
                  cell (board (snd r)) r' c' = cell (board row_to_win) r' c') /\
   x_count (snd r) = x_count row_to_win + (if Mark_eqb O X then 1 else 0) /\
   o_count (snd r) = o_count row_to_win + (if Mark_eqb O X then 0 else 1)) /\
  (exists b, is_valid_move row_to_win 0 1 = Ok b) /\
  (exists g', run (undo_move silent 0 1) row_to_win = (Ok tt, g')) /\
  (exists t, is_terminal_state row_to_win = Ok t) /\
  (exists z, evaluate row_to_win = Ok z) /\
  (forall depth b, exists v,
      run (minimax silent depth b) row_to_win = (Ok v, row_to_win)) /\
  (exists m, run (find_best_move silent) row_to_win = (Ok m, row_to_win)).
Proof.
  split.
  - split; [exact wf_row_to_win|]. split; lia.
  - apply (make_move_raises row_to_win 0 1 O); [exact wf_row_to_win|lia|lia].
Defined.

(** * The search *)

(** C7: with X on (0,0) and (0,1), O on (1,0) and (1,1) and the other
    cells empty, [find_best_move] returns (0, 2), the cell that completes
    the top row. *)
Theorem find_best_move_completes_row :
  run (find_best_move silent) row_to_win = (Ok (Some (0, 2)%nat), row_to_win).
Proof. vm_compute. reflexivity. Qed.

Lemma keep_best_settled sc l p v :
  (forall q, In q l -> le (sc q) v) ->
  fold_left (keep_best sc) l (Some p, v) = (Some p, v).
Proof.
  induction l as [|x l IH]; intros Hle; cbn [fold_left]; [reflexivity|].
  unfold keep_best at 2. cbn [snd].
  rewrite (Hle x (or_introl eq_refl)).
  apply IH. intros q Hq. apply Hle. right. assumption.
Qed.

Lemma best_move_head g p l z :
  moves g = p :: l ->
  value_of 10 (place g p X) false = Int z ->
  (forall q, In q l -> le (value_of 10 (place g q X) false) (Int z)) ->
  best_move g = Some p.
Proof.
  intros Hm Hp Hl. unfold best_move. rewrite Hm. cbn [fold_left].
  unfold keep_best at 2. cbn [snd]. rewrite Hp. cbn [gt].
  rewrite keep_best_settled; [reflexivity|]. exact Hl.
Qed.

Lemma value_Grid_init : value_of 10 Grid_init true = Int 0.
Proof.
  apply value_of_exact; vm_compute; reflexivity.
Qed.

Lemma value_after_corner :
  value_of 10 (place Grid_init (0, 0)%nat X) false = Int 0.
Proof.
  apply value_of_exact; vm_compute; reflexivity.
Qed.

Lemma value_after_others :
  forall q,
    In q [(0, 1); (0, 2); (1, 0); (1, 1); (1, 2); (2, 0); (2, 1); (2, 2)]%nat ->
    le (value_of 10 (place Grid_init q X) false) (Int 0).
Proof.
  intros q Hq. apply stays_sound.
  revert q Hq. apply each_of_true. vm_compute. reflexivity.
Qed.

Lemma best_move_Grid_init : best_move Grid_init = Some (0, 0)%nat.
Proof.
  apply best_move_head
    with (l := [(0, 1); (0, 2); (1, 0); (1, 1); (1, 2); (2, 0); (2, 1); (2, 2)]%nat)
         (z := 0).
  - vm_compute. reflexivity.
  - exact value_after_corner.
  - exact value_after_others.
Qed.

Lemma run_make_then_minimax g row col mark depth b :
  wf g -> valid g (row, col) = true ->
  fst (run (bind (make_move silent row col mark)
                 (fun _ => minimax silent depth b)) g)
  = Ok (value_of 10 (place g (row, col) mark) b).
Proof.
  intros Hw Hv. unfold run.
  rewrite (bind_Ok _ _ _ _ _ (make_move_valid silent g tt (row, col) mark Hv)).
  destruct (minimax_any silent (place g (row, col) mark) depth b
              (silent (Made row col mark) (place g (row, col) mark) tt)
              (place_wf _ _ mark Hw Hv)) as (h' & E).
  cbn [fst snd] in *. rewrite E. reflexivity.
Qed.

(** C1: from the empty board, [minimax] with X to move returns 0, and
    [find_best_move] returns a move, (0, 0), after which [minimax] in
    minimizing mode returns 0 as well. *)
Theorem empty_board_is_a_draw :
  run (minimax silent 0 true) Grid_init = (Ok (Int 0), Grid_init) /\
  exists row col,
    run (find_best_move silent) Grid_init = (Ok (Some (row, col)), Grid_init) /\
    fst (run (bind (make_move silent row col X)
                   (fun _ => minimax silent 0 false)) Grid_init)
    = Ok (Int 0).
Proof.
  split.
  - rewrite (run_minimax _ _ _ wf_Grid_init), value_Grid_init. reflexivity.
  - exists 0%nat, 0%nat. split.
    + rewrite (run_find_best_move _ wf_Grid_init).
      rewrite best_move_Grid_init. reflexivity.
    + assert (Hv : valid Grid_init (0, 0)%nat = true) by reflexivity.
      rewrite (run_make_then_minimax Grid_init 0 0 X 0 false wf_Grid_init Hv).
      rewrite value_after_corner. reflexivity.
Qed.

(** C5: on every 3x3 board, at any depth and in either mode, [minimax]
    returns with the grid as it found it, and so does [find_best_move];
    the calls they make come in matched, nested pairs, each [make_move]
    closed by the [undo_move] of the same cell that restores the grid the
    pair started from. *)
Theorem search_restores_grid g :
  wf g ->
  (forall depth b, exists v, run (minimax silent depth b) g = (Ok v, g)) /\
  (exists m, run (find_best_move silent) g = (Ok m, g)) /\
  (forall depth b h, exists v tr,
      minimax record depth b (g, h) = (Ok v, (g, h ++ tr)) /\ nested g tr) /\
  (forall h, exists m tr,
      find_best_move record (g, h) = (Ok m, (g, h ++ tr)) /\ nested g tr).
Proof.
  intros Hw. repeat split.
  - intros depth b. rewrite (run_minimax g depth b Hw). eauto.
  - rewrite (run_find_best_move g Hw). eauto.
  - intros depth b h.
    destruct (minimax_history any_grid (fun _ => True)) with
      (g := g) (depth := depth) (b := b) (h := h) as (tr & E & N & _);
      unfold any_grid; auto.
    eauto.
  - intros h.
    destruct (find_best_move_history any_grid (fun _ => True)) with
      (g := g) (h := h) as (tr & E & N & _);
      unfold any_grid; auto.
    eauto.
Qed.

Lemma search_restores_grid_witness :
  wf row_to_win /\
  ((forall depth b, exists v,
       run (minimax silent depth b) row_to_win = (Ok v, row_to_win)) /\
   (exists m, run (find_best_move silent) row_to_win = (Ok m, row_to_win)) /\
   (forall depth b h, exists v tr,
       minimax record depth b (row_to_win, h) = (Ok v, (row_to_win, h ++ tr)) /\
       nested row_to_win tr) /\
   (forall h, exists m tr,
       find_best_move record (row_to_win, h) = (Ok m, (row_to_win, h ++ tr)) /\
       nested row_to_win tr)).
Proof.
  split; [exact wf_row_to_win|].
  apply (search_restores_grid row_to_win). exact wf_row_to_win.
Defined.

(** C6: on every 3x3 board [find_best_move] scans the cells row by row
    and returns, among the empty ones, the first with the greatest
    [minimax] score: its score is strictly greater than the score of every
    empty cell scanned before it, and no empty cell scanned after it has a
    strictly greater one.  It returns [None], and raises nothing, exactly
    when no cell is empty. *)
Theorem find_best_move_first g :
  wf g ->
  exists res,
    run (find_best_move silent) g = (Ok res, g) /\
    first_best (score_after g) (filter (valid g) coords) res /\
    (res = None <-> forall p, In p coords -> valid g p = false).
Proof.
  intros Hw. exists (best_move g). split; [apply run_find_best_move; assumption|].
  pose proof (best_move_first g Hw) as Hf. split; [exact Hf|].
  fold (moves g). destruct (best_move g) as [p|]; simpl in Hf.
  - split; [discriminate|]. intros Hnone.
    destruct Hf as (l1 & l2 & Hl & _).
    assert (Hin : In p (moves g)) by (rewrite Hl; apply in_elt).
    apply filter_In in Hin. destruct Hin as [Hc Hv].
    rewrite (Hnone p Hc) in Hv. discriminate.
  - split; [|reflexivity]. intros _ p Hp.
    destruct (valid g p) eqn:Hv; [|reflexivity].
    assert (Hin : In p (moves g)) by (apply filter_In; auto).
    rewrite Hf in Hin. contradiction.
Qed.

Lemma find_best_move_first_witness :
  wf row_to_win /\
  exists res,
    run (find_best_move silent) row_to_win = (Ok res, row_to_win) /\
    first_best (score_after row_to_win) (filter (valid row_to_win) coords) res /\
    (res = None <-> forall p, In p coords -> valid row_to_win p = false).
Proof.
  split; [exact wf_row_to_win|].
  apply (find_best_move_first row_to_win). exact wf_row_to_win.
Defined.

(** * The game loop *)

Lemma to_move_step b g p :
  wf g -> to_move b g -> valid g p = true ->
  to_move (negb b) (place g p (mover b)).
Proof.
  intros _ Hb Hv. unfold to_move, lead in *.
  destruct (place_counts g p (mover b) Hv) as [-> ->].
  destruct b; simpl in *; lia.
Qed.

Lemma to_move_level b g : to_move b g -> level g.
Proof.
  unfold to_move, level. destruct b; intros ->; auto.
Qed.

Lemma best_move_valid g :
  wf g -> terminal g = false ->
  exists q, best_move g = Some q /\ valid g q = true.
Proof.
  intros Hw Ht. pose proof (best_move_first g Hw) as Hf.
  destruct (best_move g) as [q|]; simpl in Hf.
  - exists q. split; [reflexivity|].
    destruct Hf as (l1 & l2 & Hl & _).
    apply in_moves; [assumption|]. rewrite Hl. apply in_elt.
  - exfalso. apply (not_terminal_moves g Hw Ht). assumption.
Qed.

Lemma bind_cases {H A B} (m : M (H := H) A) (k : A -> M B) w :
  (exists a w', m w = (Ok a, w') /\ bind m k w = k a w') \/
  (exists e w', m w = (Raise e, w') /\ bind m k w = (Raise e, w')) \/
  (exists w', m w = (OutOfFuel, w') /\ bind m k w = (OutOfFuel, w')).
Proof.
  unfold bind. destruct (m w) as [[a|e|] w'].
  - left. eauto.
  - right. left. eauto.
  - right. right. eauto.
Qed.

Lemma after_events_same g h (o : outcome status) :
  level g -> (o = Ok Running -> wf g /\ lead g = 0) ->
  after_events h (o, (g, h)).
Proof.
  intros Hl Hr. exists []. simpl. rewrite app_nil_r.
  split; [reflexivity|]. split; [constructor|]. split; assumption.
Qed.

(** A click on an empty cell: the human's mark is recorded first, then the
    search and the reply. *)
Lemma on_event_click g h mouse_x mouse_y :
  wf g -> lead g = 0 ->
  let p := ((mouse_y / 100)%nat, (mouse_x / 100)%nat) in
  valid g p = true ->
  exists tr,
    after_events (h ++ [(Made (fst p) (snd p) O, place g p O)])
                 (on_event record (MOUSEBUTTONDOWN mouse_x mouse_y) (g, h)) /\
    snd (snd (on_event record (MOUSEBUTTONDOWN mouse_x mouse_y) (g, h)))
    = h ++ (Made (fst p) (snd p) O, place g p O) :: tr.
Proof.
  intros Hw Hl p Hv.
  assert (Hpost : after_events (h ++ [(Made (fst p) (snd p) O, place g p O)])
                    (on_event record (MOUSEBUTTONDOWN mouse_x mouse_y) (g, h))).
  { unfold on_event. cbv zeta. fold p.
    assert (Hp : In p coords) by (eapply valid_in_coords; eauto).
    pose proof (is_valid_move_wf g p Hw Hp) as Ev.
    rewrite Hv in Ev. cbn [fst snd p] in Ev.
    rewrite (bind_Ok _ _ _ true (g, h))
      by (unfold query; cbn [fst]; rewrite Ev; reflexivity).
    rewrite (bind_Ok _ _ _ _ _ (make_move_valid record g h p O Hv)).
    unfold record at 1.
    set (g1 := place g p O). set (h1 := h ++ [(Made (fst p) (snd p) O, g1)]).
    assert (Hw1 : wf g1) by (apply place_wf; assumption).
    assert (Hm1 : to_move true g1).
    { apply (to_move_step false g p Hw); [exact Hl|exact Hv]. }
    rewrite (bind_Ok _ _ _ (terminal g1) (g1, h1))
      by (unfold query; cbn [fst]; rewrite (is_terminal_state_wf g1 Hw1);
          reflexivity).
    destruct (terminal g1) eqn:Ht1.
    - apply after_events_same; [eapply to_move_level; eauto|discriminate].
    - destruct (find_best_move_history to_move level to_move_step to_move_level
                  g1 h1 Hw1 Hm1) as (tr & E & _ & F).
      rewrite (bind_Ok _ _ _ _ _ E).
      destruct (best_move_valid g1 Hw1 Ht1) as (q & -> & Hq).
      destruct q as [r c].
      rewrite (bind_Ok _ _ _ _ _ (make_move_valid record g1 (h1 ++ tr) (r, c) X Hq)).
      cbn [fst snd]. unfold record at 1.
      set (g2 := place g1 (r, c) X).
      set (h2 := (h1 ++ tr) ++ [(Made r c X, g2)]).
      assert (Hw2 : wf g2) by (apply place_wf; assumption).
      assert (Hm2 : to_move false g2).
      { apply (to_move_step true g1 (r, c) Hw1); [exact Hm1|exact Hq]. }
      assert (Hpost : forall o : outcome status,
                 after_events h1 (o, (g2, h2))).
      { intros o. exists (tr ++ [(Made r c X, g2)]). cbn [fst snd].
        split; [|split; [|split]].
        - unfold h2. rewrite app_assoc. reflexivity.
        - apply Forall_app. split; [exact F|].
          constructor; [|constructor]. eapply to_move_level; eauto.
        - eapply to_move_level; eauto.
        - intros _. split; [exact Hw2|exact Hm2]. }
      rewrite (bind_Ok _ _ _ (terminal g2) (g2, h2))
        by (unfold query; cbn [fst]; rewrite (is_terminal_state_wf g2 Hw2);
            reflexivity).
      destruct (terminal g2).
      + rewrite (bind_Ok _ _ _ (eval g2) (g2, h2))
          by (unfold query; cbn [fst]; rewrite (evaluate_wf g2 Hw2); reflexivity).
        destruct (eval g2 =? 1); [apply Hpost|].
        rewrite (bind_Ok _ _ _ (eval g2) (g2, h2))
          by (unfold query; cbn [fst]; rewrite (evaluate_wf g2 Hw2); reflexivity).
        destruct (eval g2 =? -1); apply Hpost.
      + apply Hpost. }
  destruct Hpost as (tr & Htr & Hrest) eqn:Hkeep.
  exists tr. split.
  - exists tr. split; [exact Htr|exact Hrest].
  - rewrite Htr. rewrite <- app_assoc. reflexivity.
Qed.

Lemma after_events_weaken h x r :
  level (snd x) -> after_events (h ++ [x]) r -> after_events h r.
Proof.
  intros Hx (tr & Htr & F & Hl & Hr).
  exists (x :: tr). split; [|split; [|split]]; auto.
  rewrite Htr, <- app_assoc. reflexivity.
Qed.

Lemma on_event_keeps g h event :
  wf g -> lead g = 0 -> after_events h (on_event record event (g, h)).
Proof.
  intros Hw Hl.
  assert (Hlev : level g) by (right; assumption).
  destruct event as [|mouse_x mouse_y|].
  - apply after_events_same; [assumption|discriminate].
  - set (p := ((mouse_y / 100)%nat, (mouse_x / 100)%nat)).
    destruct (valid g p) eqn:Hv.
    + destruct (on_event_click g h mouse_x mouse_y Hw Hl Hv) as (tr & Hpost & _).
      eapply after_events_weaken; [|exact Hpost].
      cbn [snd]. eapply to_move_level.
      apply (to_move_step false g p Hw); [exact Hl|exact Hv].
    + unfold on_event. cbv zeta.
      unfold bind at 1, query at 1. cbn [fst snd].
      unfold valid, p in Hv. cbn [fst snd] in Hv.
      destruct (is_valid_move g (mouse_y / 100) (mouse_x / 100)) as [ok| |].
      * subst ok. apply after_events_same; auto.
      * apply after_events_same; [assumption|discriminate].
      * apply after_events_same; [assumption|discriminate].
  - apply after_events_same; auto.
Qed.

Lemma after_events_then h h' g' (r : outcome status * (Grid * history)) :
  after_events h (Ok Running, (g', h')) ->
  after_events h' r -> after_events h r.
Proof.
  intros (t1 & E1 & F1 & _ & _) (t2 & E2 & F2 & Hl & Hr).
  cbn [fst snd] in *. subst h'.
  exists (t1 ++ t2). split; [|split; [|split]]; auto.
  - rewrite E2, app_assoc. reflexivity.
  - apply Forall_app. split; assumption.
Qed.

Lemma after_events_stop h g' h' (o o' : outcome status) :
  o' <> Ok Running ->
  after_events h (o, (g', h')) -> after_events h (o', (g', h')).
Proof.
  intros Hne (tr & E & F & Hl & _). exists tr.
  split; [|split; [|split]]; auto. intros Ho. contradiction.
Qed.

Lemma on_events_keeps events :
  forall g h, wf g -> lead g = 0 ->
              after_events h (on_events record events (g, h)).
Proof.
  induction events as [|event rest IH]; intros g h Hw Hl.
  - apply after_events_same; [right; assumption|auto].
  - cbn [on_events]. pose proof (on_event_keeps g h event Hw Hl) as Hpost.
    destruct (bind_cases (on_event record event)
                (fun s => match s with
                          | Running => on_events record rest
                          | Exited _ => ret s
                          end) (g, h))
      as [(s & [g' h'] & E & ->)|[(e & [g' h'] & E & ->)|([g' h'] & E & ->)]];
      rewrite E in Hpost.
    + destruct s as [|printed].
      * eapply after_events_then; [exact Hpost|].
        destruct Hpost as (_ & _ & _ & _ & Hr).
        destruct (Hr eq_refl) as [Hw' Hl']. apply IH; assumption.
      * exact Hpost.
    + exact Hpost.
    + exact Hpost.
Qed.

Lemma main_keeps frames :
  forall g h, wf g -> lead g = 0 ->
              after_events h (main record frames (g, h)).
Proof.
  induction frames as [|events rest IH]; intros g h Hw Hl.
  - apply after_events_same; [right; assumption|auto].
  - cbn [main]. pose proof (on_events_keeps events g h Hw Hl) as Hpost.
    destruct (bind_cases (on_events record events)
                (fun s => match s with
                          | Running => main record rest
                          | Exited _ => ret s
                          end) (g, h))
      as [(s & [g' h'] & E & ->)|[(e & [g' h'] & E & ->)|([g' h'] & E & ->)]];
      rewrite E in Hpost.
    + destruct s as [|printed].
      * eapply after_events_then; [exact Hpost|].
        destruct Hpost as (_ & _ & _ & _ & Hr).
        destruct (Hr eq_refl) as [Hw' Hl']. apply IH; assumption.
      * exact Hpost.
    + exact Hpost.
    + exact Hpost.
Qed.

Lemma main_one_event {H} (note : call -> Grid -> H -> H) event w :
  snd (main note [[event]] w) = snd (on_event note event w).
Proof.
  cbn [main on_events]. unfold bind.
  destruct (on_event note event w) as [[[|printed]|e|] w']; reflexivity.
Qed.

(** C9, as stated, fails at the first click: the human opens with O, so
    the grid recorded after that move has one O and no X, and the lead of
    X is -1, neither 0 nor 1. *)
Lemma counters_first_click_counterexample :
  ~ Forall (fun e => lead (snd e) = 0 \/ lead (snd e) = 1)
      (snd (snd (main record [[MOUSEBUTTONDOWN 50 50]] (Grid_init, [])))).
Proof.
  rewrite main_one_event.
  assert (Hv : valid Grid_init ((50 / 100)%nat, (50 / 100)%nat) = true)
    by reflexivity.
  destruct (on_event_click Grid_init [] 50 50 wf_Grid_init eq_refl Hv)
    as (tr & _ & ->).
  cbn [app]. intros HF. inversion HF as [|x l Hx _]; subst.
  destruct Hx as [Hx|Hx]; vm_compute in Hx; discriminate.
Qed.

(** C9, amended: in a game played from a new grid, whatever the events,
    every grid left by a call of [make_move] or [undo_move], in the game
    loop and inside the search, has [x_count - o_count] equal to -1 or 0,
    and so has the grid the loop ends with: the human's O comes first. *)
Theorem counters_during_play frames :
  let r := main record frames (Grid_init, []) in
  Forall (fun e => lead (snd e) = -1 \/ lead (snd e) = 0) (snd (snd r)) /\
  (lead (fst (snd r)) = -1 \/ lead (fst (snd r)) = 0).
Proof.
  intros r. subst r.
  destruct (main_keeps frames Grid_init [] wf_Grid_init eq_refl)
    as (tr & Htr & F & Hl & _).
  assert (E : snd (snd (main record frames (Grid_init, []))) = tr) by exact Htr.
  rewrite E. split; [exact F|exact Hl].
Qed.


(** * More on the search *)

Lemma fold_left_ext_in {A B} (F G : B -> A -> B) l :
  (forall x a, In x l -> F a x = G a x) ->
  forall a, fold_left F l a = fold_left G l a.
Proof.
  induction l as [|x l IH]; intros HFG a; simpl; [reflexivity|].
  rewrite (HFG x a (or_introl eq_refl)).
  apply IH. intros y b Hy. apply HFG. right. assumption.
Qed.

(** The counter of the recursion has no part in the value, once it
    exceeds the number of empty cells. *)
Lemma value_of_fuel f1 :
  forall f2 g b,
    wf g -> (length (moves g) < f1)%nat -> (length (moves g) < f2)%nat ->
    value_of f1 g b = value_of f2 g b.
Proof.
  induction f1 as [|f1 IH]; intros f2 g b Hw H1 H2; [lia|].
  destruct f2 as [|f2]; [lia|].
  rewrite !value_of_eq. destruct (terminal g); [reflexivity|].
  apply fold_left_ext_in. intros p a Hp. f_equal.
  apply in_moves in Hp; [|assumption].
  pose proof (moves_place_lt g p (mover b) Hw Hp).
  apply IH; [apply place_wf; assumption|lia|lia].
Qed.

Lemma better_pick b a x : better b (pick b a x) a /\ better b (pick b a x) x.
Proof. unfold better. split; num_crush. Qed.

Lemma better_trans b x y z : better b x y -> better b y z -> better b x z.
Proof. unfold better. intros; num_crush. Qed.

Lemma pick_one b a x : pick b a x = a \/ pick b a x = x.
Proof. num_crush; auto. Qed.

Lemma fold_pick_best {A} (v : A -> number) b l :
  forall acc,
    let r := fold_left (fun a p => pick b a (v p)) l acc in
    (r = acc \/ exists p, In p l /\ r = v p) /\
    better b r acc /\
    (forall q, In q l -> better b r (v q)).
Proof.
  induction l as [|x l IH]; intros acc; cbn [fold_left].
  - split; [left; reflexivity|]. split; [|intros q []].
    unfold better. num_crush.
  - destruct (IH (pick b acc (v x))) as (Hr & Hacc & Hall).
    destruct (better_pick b acc (v x)) as [Ha Hx].
    split; [|split].
    + destruct Hr as [Hr|(p & Hp & Hr)].
      * destruct (pick_one b acc (v x)) as [E|E].
        -- left. rewrite Hr. exact E.
        -- right. exists x. split; [left; reflexivity|]. rewrite Hr. exact E.
      * right. exists p. split; [right; assumption|assumption].
    + eapply better_trans; eassumption.
    + intros q [<-|Hq]; [|apply Hall; assumption].
      eapply better_trans; eassumption.
Qed.

(** The value of a position that is not terminal is the value of one of
    the moves, and no move is better for the side to move. *)
Lemma value_of_children g b :
  wf g -> terminal g = false ->
  (exists p, valid g p = true /\
             value_of 10 g b = value_of 10 (place g p (mover b)) (negb b)) /\
  (forall q, valid g q = true ->
             better b (value_of 10 g b)
                    (value_of 10 (place g q (mover b)) (negb b))).
Proof.
  intros Hw Ht.
  assert (Hsame : forall p, valid g p = true ->
            value_of 9 (place g p (mover b)) (negb b)
            = value_of 10 (place g p (mover b)) (negb b)).
  { intros p Hp. pose proof (moves_place_lt g p (mover b) Hw Hp).
    pose proof (moves_le_9 g).
    apply value_of_fuel; [apply place_wf; assumption|lia|lia]. }
  rewrite value_of_eq, Ht.
  destruct (fold_pick_best
              (fun p => value_of 9 (place g p (mover b)) (negb b)) b
              (moves g) (worst b)) as (Hr & _ & Hall).
  cbv zeta in Hr, Hall. split.
  - destruct Hr as [Hr|(p & Hp & Hr)].
    + exfalso.
      destruct (fold_pick_bounded
                  (fun p => value_of 9 (place g p (mover b)) (negb b)) b (moves g))
        with (acc := worst b) as (z & Hz & _).
      * intros p Hp. apply in_moves in Hp; [|assumption].
        rewrite (Hsame p Hp). apply value_of_bounded.
        -- apply place_wf; assumption.
        -- pose proof (moves_place_lt g p (mover b) Hw Hp).
           pose proof (moves_le_9 g). lia.
      * left. split; [reflexivity|apply not_terminal_moves; assumption].
      * rewrite Hr in Hz. destruct b; discriminate.
    + apply in_moves in Hp; [|assumption].
      exists p. split; [assumption|]. rewrite Hr. apply Hsame. assumption.
  - intros q Hq. rewrite <- (Hsame q Hq). apply Hall.
    apply in_moves; assumption.
Qed.

Lemma gt_le a b : gt a b = true -> le b a.
Proof. intros; num_crush. Qed.

Lemma le_refl a : le a a.
Proof. num_crush. Qed.

Lemma terminal_Ok g t : wf g -> is_terminal_state g = Ok t -> terminal g = t.
Proof.
  intros Hw E. rewrite (is_terminal_state_wf g Hw) in E. congruence.
Qed.

(** X1: on every 3x3 board [minimax] returns an integer between -1 and 1,
    never one of the two infinities it starts its loops with. *)
Theorem minimax_range g depth b :
  wf g ->
  exists z, run (minimax silent depth b) g = (Ok (Int z), g) /\ -1 <= z <= 1.
Proof.
  intros Hw. rewrite (run_minimax g depth b Hw).
  destruct (value_of_bounded 10 g b Hw) as (z & -> & Hz).
  - pose proof (moves_le_9 g). lia.
  - eauto.
Qed.

Lemma minimax_range_witness :
  wf row_to_win /\
  exists z, run (minimax silent 0 true) row_to_win = (Ok (Int z), row_to_win) /\
            -1 <= z <= 1.
Proof.
  split; [exact wf_row_to_win|].
  apply (minimax_range row_to_win 0 true). exact wf_row_to_win.
Defined.

(** X2: the [depth] argument of [minimax] has no effect on what it
    returns. *)
Theorem minimax_depth_irrelevant g depth depth' b :
  wf g ->
  run (minimax silent depth b) g = run (minimax silent depth' b) g.
Proof.
  intros Hw. rewrite !run_minimax by assumption. reflexivity.
Qed.

Lemma minimax_depth_irrelevant_witness :
  wf row_to_win /\
  run (minimax silent 0 true) row_to_win = run (minimax silent 7 true) row_to_win.
Proof.
  split; [exact wf_row_to_win|].
  apply (minimax_depth_irrelevant row_to_win 0 7 true). exact wf_row_to_win.
Defined.

(** X3: [minimax] solves the game.  On a terminal board it returns what
    [evaluate] returns.  Otherwise it returns the value that [minimax] in
    the other mode gives to one of the moves of the side to move, and no
    move of that side has a better value: none is greater in maximizing
    mode, none is smaller in minimizing mode. *)
Theorem minimax_best_reply g depth b :
  wf g ->
  (is_terminal_state g = Ok true ->
   exists z, evaluate g = Ok z /\
             run (minimax silent depth b) g = (Ok (Int z), g)) /\
  (is_terminal_state g = Ok false ->
   exists v,
     run (minimax silent depth b) g = (Ok v, g) /\
     (exists row col,
         cell (board g) row col = Ok " " /\
         fst (run (bind (make_move silent row col (mover b))
                        (fun _ => minimax silent (depth + 1) (negb b))) g)
         = Ok v) /\
     (forall row col,
         cell (board g) row col = Ok " " ->
         exists v',
           fst (run (bind (make_move silent row col (mover b))
                          (fun _ => minimax silent (depth + 1) (negb b))) g)
           = Ok v' /\ better b v v')).
Proof.
  intros Hw. split; intros Ht; apply (terminal_Ok g _ Hw) in Ht.
  - exists (eval g). split; [apply evaluate_wf; assumption|].
    rewrite (run_minimax g depth b Hw). f_equal. f_equal.
    rewrite value_of_eq, Ht. reflexivity.
  - exists (value_of 10 g b). split; [apply run_minimax; assumption|].
    destruct (value_of_children g b Hw Ht) as ((p & Hp & Ep) & Hall).
    split.
    + exists (fst p), (snd p). split; [apply valid_true; assumption|].
      destruct p as [row col]. cbn [fst snd].
      rewrite (run_make_then_minimax g row col (mover b) (depth + 1) (negb b) Hw Hp).
      f_equal. symmetry. exact Ep.
    + intros row col Hc.
      assert (Hv : valid g (row, col) = true) by (apply valid_true; exact Hc).
      exists (value_of 10 (place g (row, col) (mover b)) (negb b)).
      split; [apply run_make_then_minimax; assumption|].
      apply Hall. assumption.
Qed.

Lemma minimax_best_reply_witness :
  wf row_to_win /\
  ((is_terminal_state row_to_win = Ok true ->
    exists z, evaluate row_to_win = Ok z /\
              run (minimax silent 0 true) row_to_win = (Ok (Int z), row_to_win)) /\
   (is_terminal_state row_to_win = Ok false ->
    exists v,
      run (minimax silent 0 true) row_to_win = (Ok v, row_to_win) /\
      (exists row col,
          cell (board row_to_win) row col = Ok " " /\
          fst (run (bind (make_move silent row col (mover true))
                         (fun _ => minimax silent (0 + 1) (negb true))) row_to_win)
          = Ok v) /\
      (forall row col,
          cell (board row_to_win) row col = Ok " " ->
          exists v',
            fst (run (bind (make_move silent row col (mover true))
                           (fun _ => minimax silent (0 + 1) (negb true))) row_to_win)
            = Ok v' /\ better true v v'))).
Proof.
  split; [exact wf_row_to_win|].
  apply (minimax_best_reply row_to_win 0 true). exact wf_row_to_win.
Defined.

Lemma best_move_optimal g :
  wf g -> terminal g = false ->
  exists q, best_move g = Some q /\ valid g q = true /\
            value_of 10 (place g q X) false = value_of 10 g true.
Proof.
  intros Hw Ht. destruct (best_move_valid g Hw Ht) as (q & Hq & Hv).
  exists q. split; [assumption|]. split; [assumption|].
  pose proof (best_move_first g Hw) as Hf. rewrite Hq in Hf.
  destruct Hf as (l1 & l2 & Hl & H1 & H2).
  assert (Hmax : forall p, valid g p = true ->
                           le (score_after g p) (score_after g q)).
  { intros p Hp. apply in_moves in Hp; [|assumption]. rewrite Hl in Hp.
    apply in_app_or in Hp. destruct Hp as [Hp|[<-|Hp]].
    - apply gt_le. apply H1. assumption.
    - apply le_refl.
    - apply H2. assumption. }
  destruct (value_of_children g true Hw Ht) as ((p & Hp & Ep) & Hall).
  cbn [mover negb] in *.
  apply le_antisym.
  - apply (Hall q Hv).
  - rewrite Ep. rewrite <- !score_after_value by assumption.
    apply Hmax. assumption.
Qed.

(** X4: on a board that is not terminal, [find_best_move] returns an empty
    cell, and the value [minimax] gives to the board once X is there is the
    value it gives to the board itself with X to move: the move is as good
    as any. *)
Theorem find_best_move_optimal g :
  wf g -> is_terminal_state g = Ok false ->
  exists row col v,
    run (find_best_move silent) g = (Ok (Some (row, col)), g) /\
    cell (board g) row col = Ok " " /\
    run (minimax silent 0 true) g = (Ok v, g) /\
    fst (run (bind (make_move silent row col X)
                   (fun _ => minimax silent 0 false)) g) = Ok v.
Proof.
  intros Hw Ht. apply (terminal_Ok g _ Hw) in Ht.
  destruct (best_move_optimal g Hw Ht) as ([row col] & Hq & Hv & E).
  exists row, col, (value_of 10 g true).
  split; [rewrite (run_find_best_move g Hw), Hq; reflexivity|].
  split; [apply (valid_true g (row, col)); assumption|].
  split; [apply run_minimax; assumption|].
  rewrite (run_make_then_minimax g row col X 0 false Hw Hv).
  f_equal. exact E.
Qed.

Lemma find_best_move_optimal_witness :
  (wf row_to_win /\ is_terminal_state row_to_win = Ok false) /\
  exists row col v,
    run (find_best_move silent) row_to_win = (Ok (Some (row, col)), row_to_win) /\
    cell (board row_to_win) row col = Ok " " /\
    run (minimax silent 0 true) row_to_win = (Ok v, row_to_win) /\
    fst (run (bind (make_move silent row col X)
                   (fun _ => minimax silent 0 false)) row_to_win) = Ok v.
Proof.
  split.
  - split; [exact wf_row_to_win|reflexivity].
  - apply (find_best_move_optimal row_to_win); [exact wf_row_to_win|reflexivity].
Defined.

(** * More on the game loop *)

Lemma run_eq {A} (m : M (H := unit) A) g o g' :
  m (g, tt) = (o, (g', tt)) -> run m g = (o, g').
Proof. intros E. unfold run. rewrite E. reflexivity. Qed.

Lemma on_event_click_run g mouse_x mouse_y :
  wf g ->
  valid g ((mouse_y / 100)%nat, (mouse_x / 100)%nat) = true ->
  run (on_event silent (MOUSEBUTTONDOWN mouse_x mouse_y)) g
  = click_outcome g ((mouse_y / 100)%nat, (mouse_x / 100)%nat).
Proof.
  intros Hw. set (p := ((mouse_y / 100)%nat, (mouse_x / 100)%nat)). intros Hv.
  unfold click_outcome. cbv zeta.
  set (g1 := place g p O).
  assert (Hw1 : wf g1) by (apply place_wf; assumption).
  pose proof (valid_in_coords g p Hw Hv) as Hp.
  pose proof (is_valid_move_wf g p Hw Hp) as Ev.
  rewrite Hv in Ev. cbn [fst snd p] in Ev.
  assert (Hstart : forall k : unit -> M status,
             bind (query (fun g0 => is_valid_move g0 (mouse_y / 100) (mouse_x / 100)))
                  (fun ok => if ok
                             then bind (make_move silent (mouse_y / 100) (mouse_x / 100) O) k
                             else ret Running) (g, tt)
             = k tt (g1, tt)).
  { intros k.
    rewrite (bind_Ok _ _ _ true (g, tt))
      by (unfold query; cbn [fst]; rewrite Ev; reflexivity).
    rewrite (bind_Ok _ _ _ _ _ (make_move_valid silent g tt p O Hv)).
    reflexivity. }
  unfold run, on_event. cbv zeta. rewrite Hstart.
  rewrite (bind_Ok _ _ _ (terminal g1) (g1, tt))
    by (unfold query; cbn [fst]; rewrite (is_terminal_state_wf g1 Hw1);
        reflexivity).
  destruct (terminal g1) eqn:Ht1; [reflexivity|].
  destruct (find_best_move_any silent g1 tt Hw1) as ([] & E).
  rewrite (bind_Ok _ _ _ _ _ E).
  destruct (best_move_valid g1 Hw1 Ht1) as ([r c] & -> & Hq).
  rewrite (bind_Ok _ _ _ _ _ (make_move_valid silent g1 tt (r, c) X Hq)).
  cbn [fst snd].
  set (g2 := place g1 (r, c) X).
  change (silent (Made r c X) g2 tt) with tt.
  assert (Hw2 : wf g2) by (apply place_wf; assumption).
  rewrite (bind_Ok _ _ _ (terminal g2) (g2, tt))
    by (unfold query; cbn [fst]; rewrite (is_terminal_state_wf g2 Hw2);
        reflexivity).
  destruct (terminal g2); [|reflexivity].
  rewrite (bind_Ok _ _ _ (eval g2) (g2, tt))
    by (unfold query; cbn [fst]; rewrite (evaluate_wf g2 Hw2); reflexivity).
  unfold final_message.
  destruct (eval g2 =? 1); [reflexivity|].
  rewrite (bind_Ok _ _ _ (eval g2) (g2, tt))
    by (unfold query; cbn [fst]; rewrite (evaluate_wf g2 Hw2); reflexivity).
  destruct (eval g2 =? -1); reflexivity.
Qed.

Lemma cell_fuel b row col : cell b row col <> OutOfFuel.
Proof.
  unfold cell, getitem. destruct (nth_error b row) as [r|]; simpl;
    [destruct (nth_error r col)|]; discriminate.
Qed.

Lemma on_event_no_click g event :
  match event with
  | MOUSEBUTTONDOWN mouse_x mouse_y =>
      valid g ((mouse_y / 100)%nat, (mouse_x / 100)%nat) = false
  | _ => True
  end ->
  exists o,
    run (on_event silent event) g = (o, g) /\
    (o = Ok Running \/ o = Ok (Exited None) \/ exists e, o = Raise e).
Proof.
  destruct event as [|mouse_x mouse_y|]; intros Hv.
  - exists (Ok (Exited None)). split; [reflexivity|]. right. left. reflexivity.
  - assert (E : exists o,
               on_event silent (MOUSEBUTTONDOWN mouse_x mouse_y) (g, tt)
               = (o, (g, tt)) /\
               (o = Ok Running \/ o = Ok (Exited None) \/ exists e, o = Raise e)).
    { unfold on_event. cbv zeta. unfold bind at 1, query at 1. cbn [fst snd].
      unfold valid, is_valid_move in *. cbn [fst snd] in Hv.
      destruct (cell (board g) (mouse_y / 100) (mouse_x / 100)) as [s|e|] eqn:Ec;
        cbn [obind] in *.
      - rewrite Hv. exists (Ok Running). split; [reflexivity|]. left. reflexivity.
      - exists (Raise e). split; [reflexivity|]. right. right. eauto.
      - exfalso. eapply cell_fuel. eassumption. }
    destruct E as (o & E & Ho). exists o. split; [|exact Ho].
    apply run_eq. exact E.
  - exists (Ok Running). split; [reflexivity|]. left. reflexivity.
Qed.

Lemma run_bind {A B} (m : M (H := unit) A) (k : A -> M B) g :
  run (bind m k) g =
  match run m g with
  | (Ok a, g') => run (k a) g'
  | (Raise e, g') => (Raise e, g')
  | (OutOfFuel, g') => (OutOfFuel, g')
  end.
Proof.
  unfold run, bind. destruct (m (g, tt)) as [[a|e|] [g' []]]; reflexivity.
Qed.

(** What holds before each event and is kept by [on_event] holds along
    the whole loop. *)
Section Loop_invariant.

Variable I : Grid -> Prop.
Variable J : outcome status -> Grid -> Prop.

Hypothesis I_J : forall g, I g -> J (Ok Running) g.
Hypothesis on_event_step :
  forall g event o g',
    I g -> run (on_event silent event) g = (o, g') ->
    J o g' /\ (o = Ok Running -> I g').

Lemma on_events_invariant events :
  forall g o g',
    I g -> run (on_events silent events) g = (o, g') ->
    J o g' /\ (o = Ok Running -> I g').
Proof.
  induction events as [|event rest IH]; intros g o g' HI E.
  - cbn in E. inversion E; subst. split; [apply I_J; assumption|auto].
  - cbn [on_events] in E. rewrite run_bind in E.
    destruct (run (on_event silent event) g) as [[[|printed]|e|] g1] eqn:E1;
      destruct (on_event_step g event _ _ HI E1) as [HJ HI1].
    + apply (IH g1); [apply HI1; reflexivity|exact E].
    + cbn in E. inversion E; subst. split; [exact HJ|discriminate].
    + inversion E; subst. split; [exact HJ|discriminate].
    + inversion E; subst. split; [exact HJ|discriminate].
Qed.

Lemma main_invariant frames :
  forall g o g',
    I g -> run (main silent frames) g = (o, g') ->
    J o g' /\ (o = Ok Running -> I g').
Proof.
  induction frames as [|events rest IH]; intros g o g' HI E.
  - cbn in E. inversion E; subst. split; [apply I_J; assumption|auto].
  - cbn [main] in E. rewrite run_bind in E.
    destruct (run (on_events silent events) g) as [[[|printed]|e|] g1] eqn:E1;
      destruct (on_events_invariant events g _ _ HI E1) as [HJ HI1].
    + apply (IH g1); [apply HI1; reflexivity|exact E].
    + cbn in E. inversion E; subst. split; [exact HJ|discriminate].
    + inversion E; subst. split; [exact HJ|discriminate].
    + inversion E; subst. split; [exact HJ|discriminate].
Qed.

End Loop_invariant.

Lemma le_trans a b c : le a b -> le b c -> le a c.
Proof. intros; num_crush. Qed.

Lemma le_Int x y : le (Int x) (Int y) <-> x <= y.
Proof. unfold le, gt. rewrite Z.ltb_ge. tauto. Qed.

Lemma not_terminal_no_line g s :
  wf g -> terminal g = false -> s <> " " -> ~ completed (board g) s.
Proof.
  intros Hw Ht Hs Hc.
  destruct (wf_board_inv _ Hw) as (a0&a1&a2&b0&b1&b2&c0&c1&c2&Hb).
  unfold terminal in Ht.
  rewrite (is_terminal_state_explicit _ _ _ _ _ _ _ _ _ _ Hb) in Ht.
  apply orb_false_iff in Ht. destruct Ht as [Hlines _].
  assert (Hm : exists s0, s0 <> " " /\ completed (board g) s0) by eauto.
  rewrite (marked_line_explicit _ _ _ _ _ _ _ _ _ _ Hb) in Hm.
  rewrite Hm in Hlines. discriminate.
Qed.

Lemma not_terminal_eval g : wf g -> terminal g = false -> eval g = 0.
Proof.
  intros Hw Ht. destruct (evaluate_lines g Hw) as (z & E & _ & _ & H0).
  unfold eval. rewrite E. apply H0.
  split; apply not_terminal_no_line; auto; discriminate.
Qed.

Lemma terminal_value g b : terminal g = true -> value_of 10 g b = Int (eval g).
Proof. intros Ht. rewrite value_of_eq, Ht. reflexivity. Qed.

Lemma safe_Grid_init : safe Grid_init.
Proof.
  split; [exact wf_Grid_init|]. split; [reflexivity|].
  apply reaches_sound. vm_compute. reflexivity.
Qed.

(** After a click on an empty cell of a [safe] grid, [evaluate] is not
    negative, and if the loop goes on the grid is [safe] again. *)
Lemma click_outcome_safe g p :
  safe g -> valid g p = true ->
  (exists z, evaluate (snd (click_outcome g p)) = Ok z /\ 0 <= z) /\
  (fst (click_outcome g p) = Ok Running -> safe (snd (click_outcome g p))).
Proof.
  intros (Hw & Ht & Hsafe) Hv. unfold click_outcome. cbv zeta.
  set (g1 := place g p O).
  assert (Hw1 : wf g1) by (apply place_wf; assumption).
  assert (H1 : le (Int 0) (value_of 10 g1 true)).
  { destruct (value_of_children g false Hw Ht) as (_ & Hall).
    eapply le_trans; [exact Hsafe|]. apply (Hall p Hv). }
  destruct (terminal g1) eqn:Ht1; cbn [fst snd].
  - split; [|discriminate].
    exists (eval g1). split; [apply evaluate_wf; assumption|].
    rewrite (terminal_value g1 true Ht1) in H1. apply le_Int. exact H1.
  - destruct (best_move_optimal g1 Hw1 Ht1) as (q & -> & Hq & E).
    set (g2 := place g1 q X) in *.
    assert (Hw2 : wf g2) by (apply place_wf; assumption).
    assert (H2 : le (Int 0) (value_of 10 g2 false)) by (rewrite E; exact H1).
    destruct (terminal g2) eqn:Ht2; cbn [fst snd].
    + split; [|discriminate].
      exists (eval g2). split; [apply evaluate_wf; assumption|].
      rewrite (terminal_value g2 false Ht2) in H2. apply le_Int. exact H2.
    + split.
      * exists (eval g2). split; [apply evaluate_wf; assumption|].
        rewrite (not_terminal_eval g2 Hw2 Ht2). lia.
      * intros _. split; [exact Hw2|]. split; [exact Ht2|exact H2].
Qed.

Lemma on_event_safe g event o g' :
  safe g -> run (on_event silent event) g = (o, g') ->
  (exists z, evaluate g' = Ok z /\ 0 <= z) /\ (o = Ok Running -> safe g').
Proof.
  intros Hs E.
  assert (Hsame : (exists z, evaluate g = Ok z /\ 0 <= z)).
  { destruct Hs as (Hw & Ht & _). exists (eval g).
    split; [apply evaluate_wf; assumption|].
    rewrite (not_terminal_eval g Hw Ht). lia. }
  assert (Hno : match event with
                | MOUSEBUTTONDOWN mouse_x mouse_y =>
                    valid g ((mouse_y / 100)%nat, (mouse_x / 100)%nat) = false
                | _ => True
                end -> (exists z, evaluate g' = Ok z /\ 0 <= z) /\
                       (o = Ok Running -> safe g')).
  { intros Hv. destruct (on_event_no_click g event Hv) as (o' & E' & _).
    rewrite E' in E. inversion E; subst. split; [exact Hsame|auto]. }
  destruct event as [|mouse_x mouse_y|]; try (apply Hno; exact Logic.I).
  destruct (valid g ((mouse_y / 100)%nat, (mouse_x / 100)%nat)) eqn:Hv;
    [|apply Hno; reflexivity].
  rewrite (on_event_click_run g mouse_x mouse_y) in E
    by (destruct Hs; assumption).
  destruct (click_outcome_safe g _ Hs Hv) as [HJ HI].
  rewrite E in HJ, HI. cbn [fst snd] in HJ, HI. split; assumption.
Qed.

(** * More on the grid *)

(** X6: [undo_move] on a cell in range never raises.  It empties the cell
    and leaves the other cells; on a cell already empty it changes
    nothing; on a cell holding X it takes one from [x_count] only, and on
    a cell holding anything else it takes one from [o_count] only. *)
Theorem undo_move_effect g row col :
  wf g -> (row < 3)%nat -> (col < 3)%nat ->
  let r := run (undo_move silent row col) g in
  fst r = Ok tt /\
  cell (board (snd r)) row col = Ok " " /\
  (forall r' c', (r', c') <> (row, col) ->
                 cell (board (snd r)) r' c' = cell (board g) r' c') /\
  (cell (board g) row col = Ok " " -> snd r = g) /\
  (cell (board g) row col = Ok "X" ->
   x_count (snd r) = x_count g - 1 /\ o_count (snd r) = o_count g) /\
  (forall s, cell (board g) row col = Ok s -> s <> " " -> s <> "X" ->
             x_count (snd r) = x_count g /\ o_count (snd r) = o_count g - 1).
Proof.
  intros Hw Hr Hc r. subst r.
  destruct (cell_wf _ _ _ Hw Hr Hc) as [s Hs]. unfold run.
  destruct (String.eqb_spec s " ") as [->|Hn].
  - rewrite (undo_move_blank silent g tt _ _ Hs). cbn [fst snd].
    split; [reflexivity|]. split; [exact Hs|]. split; [reflexivity|].
    split; [reflexivity|]. split.
    + intros Hx. rewrite Hs in Hx. discriminate.
    + intros s' Hs' Hn'. rewrite Hs in Hs'. congruence.
  - destruct (setcell_defined _ _ _ _ " " Hs) as [b' Hb'].
    rewrite (undo_move_marked silent g tt _ _ _ _ Hs Hn Hb'). cbn [fst snd].
    split; [reflexivity|]. split; [|split; [|split; [|split]]].
    + destruct (s =? value X)%string; cbn [board];
        rewrite (cell_setcell _ _ _ _ _ row col Hb'), !Nat.eqb_refl; reflexivity.
    + intros r' c' Hne.
      destruct (s =? value X)%string; cbn [board];
        rewrite (cell_setcell _ _ _ _ _ r' c' Hb');
        destruct (Nat.eqb_spec row r'); destruct (Nat.eqb_spec col c');
        try reflexivity; subst; contradiction.
    + intros He. rewrite Hs in He. congruence.
    + intros Hx. rewrite Hs in Hx. inversion Hx; subst. cbn. lia.
    + intros s' Hs' _ Hnx. rewrite Hs in Hs'. inversion Hs'; subst s'.
      apply String.eqb_neq in Hnx. cbn [value]. rewrite Hnx. cbn. lia.
Qed.

Lemma undo_move_effect_witness :
  (wf row_to_win /\ (1 < 3)%nat /\ (0 < 3)%nat) /\
  let r := run (undo_move silent 1 0) row_to_win in
  fst r = Ok tt /\
  cell (board (snd r)) 1 0 = Ok " " /\
  (forall r' c', (r', c') <> (1, 0)%nat ->
                 cell (board (snd r)) r' c' = cell (board row_to_win) r' c') /\
  (cell (board row_to_win) 1 0 = Ok " " -> snd r = row_to_win) /\
  (cell (board row_to_win) 1 0 = Ok "X" ->
   x_count (snd r) = x_count row_to_win - 1 /\
   o_count (snd r) = o_count row_to_win) /\
  (forall s, cell (board row_to_win) 1 0 = Ok s -> s <> " " -> s <> "X" ->
             x_count (snd r) = x_count row_to_win /\
             o_count (snd r) = o_count row_to_win - 1).
Proof.
  split.
  - split; [exact wf_row_to_win|]. split; lia.
  - apply (undo_move_effect row_to_win 1 0); [exact wf_row_to_win|lia|lia].
Defined.

Lemma cell_outside b row col :
  wf_board b -> (3 <= row)%nat \/ (3 <= col)%nat ->
  cell b row col = Raise IndexError.
Proof.
  intros Hw Hout. unfold cell.
  destruct (getitem b row) as [r| |] eqn:Er; cbn [obind].
  - destruct (getitem r col) as [s| |] eqn:Ec.
    + assert (Hc : cell b row col = Ok s)
        by (unfold cell; rewrite Er; cbn [obind]; exact Ec).
      destruct (cell_lt _ _ _ _ Hw Hc). lia.
    + unfold getitem in Ec. destruct (nth_error r col); congruence.
    + unfold getitem in Ec. destruct (nth_error r col); congruence.
  - unfold getitem in Er. destruct (nth_error b row); congruence.
  - unfold getitem in Er. destruct (nth_error b row); congruence.
Qed.

(** X7: with a row or a column of 3 or more, [is_valid_move], [make_move]
    and [undo_move] raise [IndexError], and the grid is left as it was. *)
Theorem out_of_range_raises g row col mark :
  wf g -> (3 <= row)%nat \/ (3 <= col)%nat ->
  is_valid_move g row col = Raise IndexError /\
  run (make_move silent row col mark) g = (Raise IndexError, g) /\
  run (undo_move silent row col) g = (Raise IndexError, g).
Proof.
  intros Hw Hout. pose proof (cell_outside _ _ _ Hw Hout) as Hc.
  split; [|split].
  - unfold is_valid_move. rewrite Hc. reflexivity.
  - unfold run. rewrite (make_move_outside silent g tt _ _ mark _ Hc).
    reflexivity.
  - unfold run, undo_move, bind, query. cbn [fst snd]. rewrite Hc. reflexivity.
Qed.

Lemma out_of_range_raises_witness :
  (wf row_to_win /\ ((3 <= 3)%nat \/ (3 <= 1)%nat)) /\
  (is_valid_move row_to_win 3 1 = Raise IndexError /\
   run (make_move silent 3 1 X) row_to_win = (Raise IndexError, row_to_win) /\
   run (undo_move silent 3 1) row_to_win = (Raise IndexError, row_to_win)).
Proof.
  split.
  - split; [exact wf_row_to_win|]. left. lia.
  - apply (out_of_range_raises row_to_win 3 1 X); [exact wf_row_to_win|].
    left. lia.
Defined.

(** * How a game ends *)

Lemma filter_length_remove {A} (f f' : A -> bool) l x :
  NoDup l -> In x l -> f x = true -> f' x = false ->
  (forall y, y <> x -> f' y = f y) ->
  length (filter f l) = S (length (filter f' l)).
Proof.
  intros Hnd Hin Hfx Hfx' Hsame.
  induction l as [|y l IH]; [contradiction|].
  inversion Hnd as [|? ? Hy Hnd']; subst.
  destruct Hin as [->|Hin].
  - simpl. rewrite Hfx, Hfx'. simpl. f_equal. f_equal.
    apply filter_ext_in. intros z Hz. symmetry. apply Hsame.
    intros ->. contradiction.
  - assert (Hne : y <> x) by (intros ->; contradiction).
    simpl. rewrite (Hsame y Hne). destruct (f y); simpl; rewrite (IH Hnd' Hin);
      reflexivity.
Qed.

Lemma NoDup_coords : NoDup coords.
Proof.
  unfold coords, range. cbn.
  repeat (constructor; [simpl; intuition congruence|]). constructor.
Qed.

Lemma place_valid_other g p mark q :
  valid g p = true -> q <> p -> valid (place g p mark) q = valid g q.
Proof.
  intros Hv Hne. unfold valid at 1, is_valid_move.
  rewrite (place_cell _ _ _ _ _ Hv).
  destruct (Nat.eqb_spec (fst p) (fst q)) as [E1|E1];
    destruct (Nat.eqb_spec (snd p) (snd q)) as [E2|E2]; cbn [andb];
    try reflexivity.
  exfalso. apply Hne. destruct p, q. simpl in *. congruence.
Qed.

Lemma place_valid_same g p mark :
  valid g p = true -> valid (place g p mark) p = false.
Proof.
  intros Hv. destruct (valid (place g p mark) p) eqn:E; [|reflexivity].
  destruct (place_valid _ _ _ _ Hv E) as [_ Hne]. contradiction.
Qed.

Lemma moves_place_S g p mark :
  wf g -> valid g p = true ->
  length (moves g) = S (length (moves (place g p mark))).
Proof.
  intros Hw Hv. unfold moves.
  apply filter_length_remove with (x := p).
  - exact NoDup_coords.
  - eapply valid_in_coords; eassumption.
  - exact Hv.
  - apply place_valid_same. exact Hv.
  - intros q Hq. apply place_valid_other; assumption.
Qed.

Lemma place_marks_only g p mark :
  valid g p = true -> marks_only g -> marks_only (place g p mark).
Proof.
  intros Hv Hm r c s Hs. rewrite (place_cell _ _ _ _ _ Hv) in Hs.
  destruct ((fst p =? r) && (snd p =? c))%nat.
  - inversion Hs. destruct mark; auto.
  - eapply Hm. eassumption.
Qed.

Lemma completed_mark g s :
  marks_only g -> completed (board g) s -> s = " " \/ s = "X" \/ s = "O".
Proof.
  intros Hm (l & _ & Hl). destruct l as [[p q] r]. destruct Hl as (Hp & _).
  eapply Hm. eassumption.
Qed.

Lemma completed_before g p s mark :
  valid g p = true -> s <> value mark ->
  completed (board (place g p mark)) s -> completed (board g) s.
Proof.
  intros Hv Hs (l & Hin & Hl). exists l. split; [assumption|].
  destruct l as [[a b] c]. unfold line_of in *.
  rewrite !(place_cell _ _ _ _ _ Hv) in Hl.
  destruct Hl as (Ha & Hb & Hc).
  repeat split;
    match goal with
    | |- cell _ (fst ?x) (snd ?x) = _ =>
        match goal with
        | H : (if ((fst p =? fst x) && (snd p =? snd x))%nat then _ else _) = _ |- _ =>
            destruct ((fst p =? fst x) && (snd p =? snd x))%nat;
            [inversion H; congruence|exact H]
        end
    end.
Qed.

Lemma terminal_no_line_full g :
  wf g -> terminal g = true ->
  (forall s, s <> " " -> ~ completed (board g) s) -> full (board g).
Proof.
  intros Hw Ht Hno.
  destruct (wf_board_inv _ Hw) as (a0&a1&a2&b0&b1&b2&c0&c1&c2&Hb).
  unfold terminal in Ht.
  rewrite (is_terminal_state_explicit _ _ _ _ _ _ _ _ _ _ Hb) in Ht.
  apply orb_true_iff in Ht. destruct Ht as [Hl|Hf].
  - apply (marked_line_explicit _ _ _ _ _ _ _ _ _ _ Hb) in Hl.
    destruct Hl as (s & Hs & Hc). exfalso. apply (Hno s Hs Hc).
  - apply (full_explicit _ _ _ _ _ _ _ _ _ _ Hb). exact Hf.
Qed.

Lemma full_no_moves g : wf g -> full (board g) -> moves g = [].
Proof.
  intros Hw Hf. destruct (moves g) as [|p l] eqn:E; [reflexivity|].
  assert (Hin : In p (moves g)) by (rewrite E; left; reflexivity).
  apply in_moves in Hin; [|assumption].
  pose proof (valid_in_coords g p Hw Hin) as Hc. apply in_coords in Hc.
  apply valid_true in Hin. exfalso. apply (Hf (fst p) (snd p)); tauto.
Qed.

(** A terminal grid written by the program on which [evaluate] returns 0
    is full. *)
Lemma terminal_draw_full g :
  wf g -> marks_only g -> terminal g = true -> eval g = 0 -> full (board g).
Proof.
  intros Hw Hm Ht He. apply terminal_no_line_full; try assumption.
  intros s Hs Hc.
  destruct (evaluate_lines g Hw) as (z & E & _ & _ & H0).
  unfold eval in He. rewrite E in He. subst z.
  destruct H0 as [H0 _]. destruct (H0 eq_refl) as [Hx Ho].
  destruct (completed_mark g s Hm Hc) as [E1 | [E1 | E1]]; subst s.
  - apply Hs. reflexivity.
  - exact (Hx Hc).
  - exact (Ho Hc).
Qed.

Lemma eval_from g z : wf g -> evaluate g = Ok z -> eval g = z.
Proof. intros Hw E. unfold eval. rewrite E. reflexivity. Qed.

Lemma click_outcome_end g p :
  humans_turn g -> valid g p = true ->
  fair_end (fst (click_outcome g p)) (snd (click_outcome g p)) /\
  (fst (click_outcome g p) = Ok Running -> humans_turn (snd (click_outcome g p))).
Proof.
  intros (Hs & Hm & Hodd) Hv.
  destruct (click_outcome_safe g p Hs Hv) as [Hz Hrun].
  destruct Hs as (Hw & Ht & Hsafe).
  unfold click_outcome in *. cbv zeta in *.
  set (g1 := place g p O) in *.
  assert (Hw1 : wf g1) by (apply place_wf; assumption).
  assert (Hm1 : marks_only g1) by (apply place_marks_only; assumption).
  pose proof (moves_place_S g p O Hw Hv) as Hn1. fold g1 in Hn1.
  destruct (terminal g1) eqn:Ht1; cbn [fst snd] in *.
  - split; [|discriminate]. right. split; [reflexivity|].
    destruct Hz as (z & Ez & Hz).
    assert (He : eval g1 = 0).
    { pose proof (eval_range g1 Hw1) as Hr.
      rewrite (eval_from g1 z Hw1 Ez) in *.
      destruct (Z.eq_dec z 1) as [->|Hne]; [|lia].
      exfalso. destruct (evaluate_lines g1 Hw1) as (z' & E' & H1 & _).
      rewrite Ez in E'. inversion E'; subst z'.
      destruct H1 as [H1 _]. specialize (H1 eq_refl).
      apply (not_terminal_no_line g "X" Hw Ht); [discriminate|].
      apply (completed_before g p "X" O Hv); [discriminate|exact H1]. }
    split; [rewrite (evaluate_wf g1 Hw1), He; reflexivity|].
    apply terminal_draw_full; assumption.
  - destruct (best_move_valid g1 Hw1 Ht1) as (q & Eq & Hq).
    rewrite Eq in *.
    set (g2 := place g1 q X) in *.
    assert (Hw2 : wf g2) by (apply place_wf; assumption).
    assert (Hm2 : marks_only g2) by (apply place_marks_only; assumption).
    pose proof (moves_place_S g1 q X Hw1 Hq) as Hn2. fold g2 in Hn2.
    assert (Hodd2 : Nat.odd (length (moves g2)) = true).
    { rewrite Hn1, Hn2 in Hodd. exact Hodd. }
    destruct (terminal g2) eqn:Ht2; cbn [fst snd] in *.
    + split; [|discriminate]. left.
      destruct Hz as (z & Ez & Hz).
      pose proof (eval_range g2 Hw2) as Hr.
      rewrite (eval_from g2 z Hw2 Ez) in *.
      destruct (Z.eq_dec z 1) as [->|Hne]; [split; [reflexivity|exact Ez]|].
      exfalso. assert (z = 0) by lia. subst z.
      pose proof (terminal_draw_full g2 Hw2 Hm2 Ht2 (eval_from g2 0 Hw2 Ez)) as Hf.
      rewrite (full_no_moves g2 Hw2 Hf) in Hodd2. discriminate.
    + split; [exact Logic.I|]. intros Hr.
      split; [apply Hrun; exact Hr|]. split; assumption.
Qed.

Lemma on_event_end g event o g' :
  humans_turn g -> run (on_event silent event) g = (o, g') ->
  fair_end o g' /\ (o = Ok Running -> humans_turn g').
Proof.
  intros Hh E.
  assert (Hno : match event with
                | MOUSEBUTTONDOWN mouse_x mouse_y =>
                    valid g ((mouse_y / 100)%nat, (mouse_x / 100)%nat) = false
                | _ => True
                end -> fair_end o g' /\ (o = Ok Running -> humans_turn g')).
  { intros Hv. destruct (on_event_no_click g event Hv) as (o' & E' & Ho).
    rewrite E' in E. inversion E; subst. split; [|auto].
    destruct Ho as [Ho|[Ho|(e & Ho)]]; rewrite Ho; exact Logic.I. }
  destruct event as [|mouse_x mouse_y|]; try (apply Hno; exact Logic.I).
  destruct (valid g ((mouse_y / 100)%nat, (mouse_x / 100)%nat)) eqn:Hv;
    [|apply Hno; reflexivity].
  rewrite (on_event_click_run g mouse_x mouse_y) in E
    by (destruct Hh as ((Hw & _) & _); assumption).
  destruct (click_outcome_end g _ Hh Hv) as [HJ HI].
  rewrite E in HJ, HI. cbn [fst snd] in HJ, HI. split; assumption.
Qed.

Lemma humans_turn_Grid_init : humans_turn Grid_init.
Proof.
  split; [exact safe_Grid_init|]. split; [|reflexivity].
  intros r c s Hs.
  destruct (cell_lt _ _ _ _ wf_Grid_init Hs) as [Hr Hc].
  destruct r as [|[|[|r]]]; [| | |lia];
    (destruct c as [|[|[|c]]]; [| | |lia]);
    cbn in Hs; inversion Hs; auto.
Qed.

(** X8: how a game ends.  In a game played from a new grid, whatever the
    events, when the loop ends with a message it is either "AI wins!", on
    a grid where [evaluate] returns 1, or "Human wins!", on a full grid
    where [evaluate] returns 0: the human never has a line, a drawn game
    is announced as a win of the human, and "Draw!" is never printed. *)
Theorem game_end_message frames :
  let r := run (main silent frames) Grid_init in
  match fst r with
  | Ok (Exited (Some message)) =>
      (message = "AI wins!" /\ evaluate (snd r) = Ok 1) \/
      (message = "Human wins!" /\ evaluate (snd r) = Ok 0 /\
       full (board (snd r)))
  | _ => True
  end.
Proof.
  intros r. subst r.
  destruct (run (main silent frames) Grid_init) as [o g'] eqn:E.
  cbn [fst snd].
  apply (main_invariant humans_turn fair_end)
    with (frames := frames) (g := Grid_init) (o := o) (g' := g').
  - intros g _. exact Logic.I.
  - intros g event o0 g0. apply on_event_end.
  - exact humans_turn_Grid_init.
  - exact E.
Qed.

Lemma click_outcome_no_O g p :
  humans_turn g -> valid g p = true ->
  ~ completed (board (snd (click_outcome g p))) "O".
Proof.
  intros Hh Hv. destruct (click_outcome_end g p Hh Hv) as [Hend _].
  destruct Hh as ((Hw & Ht & _) & _ & _).
  unfold click_outcome in *. cbv zeta in *.
  set (g1 := place g p O) in *.
  assert (Hw1 : wf g1) by (apply place_wf; assumption).
  destruct (terminal g1) eqn:Ht1; cbn [fst snd] in *.
  - destruct Hend as [[Hmsg _]|(_ & E & _)]; [discriminate|].
    destruct (evaluate_lines g1 Hw1) as (z & E' & _ & _ & H0).
    rewrite E in E'. inversion E'; subst z.
    destruct H0 as [H0 _]. apply (H0 eq_refl).
  - assert (Hno : ~ completed (board g1) "O")
      by (apply not_terminal_no_line; [assumption|assumption|discriminate]).
    destruct (best_move_valid g1 Hw1 Ht1) as (q & Eq & Hq).
    rewrite Eq in *.
    assert (Hno2 : ~ completed (board (place g1 q X)) "O").
    { intros Hc. apply Hno.
      apply (completed_before g1 q "O" X Hq); [discriminate|exact Hc]. }
    destruct (terminal (place g1 q X)); exact Hno2.
Qed.

Lemma on_event_no_O g event o g' :
  humans_turn g -> run (on_event silent event) g = (o, g') ->
  (~ completed (board g') "O" /\ exists z, evaluate g' = Ok z /\ 0 <= z) /\
  (o = Ok Running -> humans_turn g').
Proof.
  intros Hh E.
  destruct (on_event_end g event o g' Hh E) as [_ Hrun].
  destruct (on_event_safe g event o g' (proj1 Hh) E) as [Hz _].
  split; [|exact Hrun]. split; [|exact Hz].
  assert (Hsame : ~ completed (board g) "O").
  { destruct Hh as ((Hw & Ht & _) & _ & _).
    apply not_terminal_no_line; [assumption|assumption|discriminate]. }
  assert (Hno : match event with
                | MOUSEBUTTONDOWN mouse_x mouse_y =>
                    valid g ((mouse_y / 100)%nat, (mouse_x / 100)%nat) = false
                | _ => True
                end -> ~ completed (board g') "O").
  { intros Hv. destruct (on_event_no_click g event Hv) as (o' & E' & _).
    rewrite E' in E. inversion E; subst. exact Hsame. }
  destruct event as [|mouse_x mouse_y|]; try (apply Hno; exact Logic.I).
  destruct (valid g ((mouse_y / 100)%nat, (mouse_x / 100)%nat)) eqn:Hv;
    [|apply Hno; reflexivity].
  rewrite (on_event_click_run g mouse_x mouse_y) in E
    by (destruct Hh as ((Hw & _) & _); assumption).
  pose proof (click_outcome_no_O g _ Hh Hv) as HO.
  rewrite E in HO. exact HO.
Qed.

(** X5: the program never loses.  In a game played from a new grid,
    whatever the events, the grid the loop has reached has no completed
    line of O, and [evaluate] returns 0 or 1 on it, never -1. *)
Theorem ai_never_loses frames :
  let g' := snd (run (main silent frames) Grid_init) in
  ~ completed (board g') "O" /\
  exists z, evaluate g' = Ok z /\ 0 <= z.
Proof.
  intros g'. subst g'.
  destruct (run (main silent frames) Grid_init) as [o g'] eqn:E.
  cbn [snd].
  apply (main_invariant humans_turn
           (fun _ g => ~ completed (board g) "O" /\
                       exists z, evaluate g = Ok z /\ 0 <= z))
    with (frames := frames) (g := Grid_init) (o := o).
  - intros g ((Hw & Ht & _) & _ & _). split.
    + apply not_terminal_no_line; [assumption|assumption|discriminate].
    + exists (eval g). split; [apply evaluate_wf; assumption|].
      rewrite (not_terminal_eval g Hw Ht). lia.
  - intros g event o0 g0. apply on_event_no_O.
  - exact humans_turn_Grid_init.
  - exact E.
Qed.

(** X9: a click on an empty cell.  [make_move] puts the human's O there.
    If the game is then over the loop ends with "Human wins!".  Otherwise
    [find_best_move] returns a cell, [make_move] puts X there and does not
    raise, and the loop goes on exactly when the game is still not over;
    in both cases the grid is left with these two marks added. *)
Theorem click_on_empty_cell g mouse_x mouse_y :
  wf g ->
  let row := (mouse_y / 100)%nat in
  let col := (mouse_x / 100)%nat in
  cell (board g) row col = Ok " " ->
  let r := run (on_event silent (MOUSEBUTTONDOWN mouse_x mouse_y)) g in
  exists g1,
    run (make_move silent row col O) g = (Ok tt, g1) /\
    ((is_terminal_state g1 = Ok true /\
      r = (Ok (Exited (Some "Human wins!")), g1)) \/
     (is_terminal_state g1 = Ok false /\
      exists row' col' g2,
        run (find_best_move silent) g1 = (Ok (Some (row', col')), g1) /\
        run (make_move silent row' col' X) g1 = (Ok tt, g2) /\
        snd r = g2 /\
        (is_terminal_state g2 = Ok false -> fst r = Ok Running) /\
        (is_terminal_state g2 = Ok true ->
         exists message, fst r = Ok (Exited (Some message))))).
Proof.
  intros Hw row col Hc r. subst r.
  assert (Hv : valid g (row, col) = true) by (apply valid_true; exact Hc).
  assert (Hmake : forall g0 p mark, valid g0 p = true ->
             run (make_move silent (fst p) (snd p) mark) g0
             = (Ok tt, place g0 p mark)).
  { intros g0 p mark Hp. unfold run.
    rewrite (make_move_valid silent g0 tt p mark Hp). reflexivity. }
  rewrite (on_event_click_run g mouse_x mouse_y Hw Hv).
  fold row col. unfold click_outcome. cbv zeta.
  set (g1 := place g (row, col) O).
  assert (Hw1 : wf g1) by (apply place_wf; assumption).
  exists g1. split; [apply (Hmake g (row, col) O Hv)|].
  rewrite (is_terminal_state_wf g1 Hw1).
  destruct (terminal g1) eqn:Ht1.
  - left. split; reflexivity.
  - right. split; [reflexivity|].
    destruct (best_move_valid g1 Hw1 Ht1) as ([row' col'] & Eq & Hq).
    rewrite Eq.
    set (g2 := place g1 (row', col') X).
    assert (Hw2 : wf g2) by (apply place_wf; assumption).
    exists row', col', g2.
    split; [rewrite (run_find_best_move g1 Hw1), Eq; reflexivity|].
    split; [apply (Hmake g1 (row', col') X Hq)|].
    rewrite (is_terminal_state_wf g2 Hw2).
    destruct (terminal g2); cbn [fst snd].
    + split; [reflexivity|]. split; [discriminate|]. intros _. eauto.
    + split; [reflexivity|]. split; [reflexivity|]. discriminate.
Qed.

Lemma click_on_empty_cell_witness :
  (wf row_to_win /\ cell (board row_to_win) (150 / 100) (250 / 100) = Ok " ") /\
  let r := run (on_event silent (MOUSEBUTTONDOWN 250 150)) row_to_win in
  exists g1,
    run (make_move silent (150 / 100) (250 / 100) O) row_to_win = (Ok tt, g1) /\
    ((is_terminal_state g1 = Ok true /\
      r = (Ok (Exited (Some "Human wins!")), g1)) \/
     (is_terminal_state g1 = Ok false /\
      exists row' col' g2,
        run (find_best_move silent) g1 = (Ok (Some (row', col')), g1) /\
        run (make_move silent row' col' X) g1 = (Ok tt, g2) /\
        snd r = g2 /\
        (is_terminal_state g2 = Ok false -> fst r = Ok Running) /\
        (is_terminal_state g2 = Ok true ->
         exists message, fst r = Ok (Exited (Some message))))).
Proof.
  split.
  - split; [exact wf_row_to_win|reflexivity].
  - apply (click_on_empty_cell row_to_win 250 150);
      [exact wf_row_to_win|reflexivity].
Defined.

(** X10: a click elsewhere changes nothing.  On a cell that is not empty
    the loop goes on with the grid as it was; at a position of 300 or more
    the subscript is out of range, [IndexError] is raised and the grid is
    as it was. *)
Theorem click_elsewhere g mouse_x mouse_y :
  wf g ->
  (forall s, cell (board g) (mouse_y / 100) (mouse_x / 100) = Ok s ->
             s <> " " ->
             run (on_event silent (MOUSEBUTTONDOWN mouse_x mouse_y)) g
             = (Ok Running, g)) /\
  ((300 <= mouse_x)%nat \/ (300 <= mouse_y)%nat ->
   run (on_event silent (MOUSEBUTTONDOWN mouse_x mouse_y)) g
   = (Raise IndexError, g)).
Proof.
  intros Hw. split.
  - intros s Hs Hn. apply run_eq.
    unfold on_event. cbv zeta. unfold bind at 1, query at 1. cbn [fst snd].
    unfold is_valid_move. rewrite Hs. cbn [obind].
    apply String.eqb_neq in Hn. rewrite Hn. reflexivity.
  - intros Hout. apply run_eq.
    assert (Hc : cell (board g) (mouse_y / 100) (mouse_x / 100) = Raise IndexError).
    { apply cell_outside; [exact Hw|].
      destruct Hout as [Hx|Hy].
      - right. apply (Nat.div_le_lower_bound mouse_x 100 3); lia.
      - left. apply (Nat.div_le_lower_bound mouse_y 100 3); lia. }
    unfold on_event. cbv zeta. unfold bind at 1, query at 1. cbn [fst snd].
    unfold is_valid_move. rewrite Hc. reflexivity.
Qed.

Lemma click_elsewhere_witness :
  wf row_to_win /\
  ((forall s, cell (board row_to_win) (50 / 100) (150 / 100) = Ok s ->
              s <> " " ->
              run (on_event silent (MOUSEBUTTONDOWN 150 50)) row_to_win
              = (Ok Running, row_to_win)) /\
   ((300 <= 150)%nat \/ (300 <= 50)%nat ->
    run (on_event silent (MOUSEBUTTONDOWN 150 50)) row_to_win
    = (Raise IndexError, row_to_win))).
Proof.
  split; [exact wf_row_to_win|].
  apply (click_elsewhere row_to_win 150 50). exact wf_row_to_win.
Defined.

(** * The counters and the board *)

Lemma place_invalid g p mark : valid g p = false -> place g p mark = g.
Proof.
  intros Hv. unfold place, make_move, bind, query. cbn [fst snd].
  unfold valid in Hv.
  destruct (is_valid_move g (fst p) (snd p)) as [ok| |]; try reflexivity.
  subst ok. reflexivity.
Qed.

Lemma count_mark_place g p mark :
  wf g -> valid g p = true ->
  count_mark (place g p mark) (value mark) = S (count_mark g (value mark)).
Proof.
  intros Hw Hv. unfold count_mark.
  apply filter_length_remove with (x := p).
  - exact NoDup_coords.
  - eapply valid_in_coords; eassumption.
  - unfold holds. rewrite (place_cell _ _ _ _ _ Hv), !Nat.eqb_refl.
    cbn [andb]. apply String.eqb_refl.
  - unfold holds. apply valid_true in Hv. rewrite Hv.
    destruct mark; reflexivity.
  - intros q Hq. unfold holds. rewrite (place_cell _ _ _ _ _ Hv).
    destruct (Nat.eqb_spec (fst p) (fst q)) as [E1|E1];
      destruct (Nat.eqb_spec (snd p) (snd q)) as [E2|E2]; cbn [andb];
      try reflexivity.
    exfalso. apply Hq. destruct p, q. simpl in *. congruence.
Qed.

Lemma count_mark_place_other g p mark s :
  valid g p = true -> s <> value mark -> s <> " " ->
  count_mark (place g p mark) s = count_mark g s.
Proof.
  intros Hv Hs Hb. unfold count_mark. f_equal.
  apply filter_ext. intros q. unfold holds.
  rewrite (place_cell _ _ _ _ _ Hv).
  destruct (Nat.eqb_spec (fst p) (fst q)) as [E1|E1];
    destruct (Nat.eqb_spec (snd p) (snd q)) as [E2|E2]; cbn [andb];
    try reflexivity.
  assert (q = p) by (destruct p, q; simpl in *; congruence). subst q.
  apply valid_true in Hv. rewrite Hv.
  apply not_eq_sym in Hs. apply not_eq_sym in Hb.
  apply String.eqb_neq in Hs. apply String.eqb_neq in Hb.
  rewrite Hs, Hb. reflexivity.
Qed.

Lemma place_counts_agree g p mark :
  wf g -> counts_agree g -> counts_agree (place g p mark).
Proof.
  intros Hw [Hx Ho]. destruct (valid g p) eqn:Hv.
  - destruct (place_counts g p mark Hv) as [Ex Eo]. unfold counts_agree.
    rewrite Ex, Eo. destruct mark; cbn [Mark_eqb].
    + pose proof (count_mark_place g p X Hw Hv) as E1. cbn [value] in E1.
      rewrite E1.
      rewrite (count_mark_place_other g p X "O" Hv) by discriminate.
      split; lia.
    + pose proof (count_mark_place g p O Hw Hv) as E1. cbn [value] in E1.
      rewrite E1.
      rewrite (count_mark_place_other g p O "X" Hv) by discriminate.
      split; lia.
  - rewrite (place_invalid g p mark Hv). split; assumption.
Qed.

Lemma place_wf_any g p mark : wf g -> wf (place g p mark).
Proof.
  intros Hw. destruct (valid g p) eqn:Hv.
  - apply place_wf; assumption.
  - rewrite (place_invalid g p mark Hv). exact Hw.
Qed.

Lemma on_event_counts g event o g' :
  wf g /\ counts_agree g -> run (on_event silent event) g = (o, g') ->
  counts_agree g' /\ (o = Ok Running -> wf g' /\ counts_agree g').
Proof.
  intros [Hw Hc] E.
  assert (Hgoal : wf g' /\ counts_agree g'); [|tauto].
  assert (Hno : match event with
                | MOUSEBUTTONDOWN mouse_x mouse_y =>
                    valid g ((mouse_y / 100)%nat, (mouse_x / 100)%nat) = false
                | _ => True
                end -> wf g' /\ counts_agree g').
  { intros Hv. destruct (on_event_no_click g event Hv) as (o' & E' & _).
    rewrite E' in E. inversion E; subst. split; assumption. }
  destruct event as [|mouse_x mouse_y|]; try (apply Hno; exact Logic.I).
  destruct (valid g ((mouse_y / 100)%nat, (mouse_x / 100)%nat)) eqn:Hv;
    [|apply Hno; reflexivity].
  rewrite (on_event_click_run g mouse_x mouse_y Hw Hv) in E.
  unfold click_outcome in E. cbv zeta in E.
  set (g1 := place g _ O) in E.
  assert (H1 : wf g1 /\ counts_agree g1)
    by (split; [apply place_wf_any|apply place_counts_agree]; assumption).
  destruct (terminal g1); [inversion E; subst; exact H1|].
  destruct (best_move g1) as [q|]; [|inversion E; subst; exact H1].
  assert (H2 : wf (place g1 q X) /\ counts_agree (place g1 q X))
    by (destruct H1; split; [apply place_wf_any|apply place_counts_agree];
        assumption).
  destruct (terminal (place g1 q X)); inversion E; subst; exact H2.
Qed.

Lemma counts_agree_Grid_init : counts_agree Grid_init.
Proof. split; reflexivity. Qed.

(** X11: the counters follow the board.  In a game played from a new grid,
    whatever the events, [x_count] is the number of cells that hold X and
    [o_count] the number of cells that hold O on the grid the loop has
    reached. *)
Theorem counters_follow_board frames :
  let g' := snd (run (main silent frames) Grid_init) in
  x_count g' = Z.of_nat (count_mark g' "X") /\
  o_count g' = Z.of_nat (count_mark g' "O").
Proof.
  intros g'. subst g'.
  destruct (run (main silent frames) Grid_init) as [o g'] eqn:E.
  cbn [snd].
  destruct (main_invariant (fun g => wf g /\ counts_agree g)
              (fun _ g => counts_agree g)) with
    (frames := frames) (g := Grid_init) (o := o) (g' := g') as [HJ _].
  - intros g [_ Hc]. exact Hc.
  - intros g event o0 g0. apply on_event_counts.
  - split; [exact wf_Grid_init|exact counts_agree_Grid_init].
  - exact E.
  - exact HJ.
Qed.

Lemma on_event_lead g event g' :
  humans_turn g -> lead g = 0 ->
  run (on_event silent event) g = (Ok Running, g') -> lead g' = 0.
Proof.
  intros ((Hw & Ht & _) & _ & _) Hl E.
  assert (Hno : match event with
                | MOUSEBUTTONDOWN mouse_x mouse_y =>
                    valid g ((mouse_y / 100)%nat, (mouse_x / 100)%nat) = false
                | _ => True
                end -> lead g' = 0).
  { intros Hv. destruct (on_event_no_click g event Hv) as (o' & E' & _).
    rewrite E' in E. inversion E; subst. exact Hl. }
  destruct event as [|mouse_x mouse_y|]; try (apply Hno; exact Logic.I).
  destruct (valid g ((mouse_y / 100)%nat, (mouse_x / 100)%nat)) eqn:Hv;
    [|apply Hno; reflexivity].
  rewrite (on_event_click_run g mouse_x mouse_y Hw Hv) in E.
  unfold click_outcome in E. cbv zeta in E.
  set (p := ((mouse_y / 100)%nat, (mouse_x / 100)%nat)) in *.
  set (g1 := place g p O) in *.
  assert (Hw1 : wf g1) by (apply place_wf; assumption).
  destruct (terminal g1) eqn:Ht1; [discriminate|].
  destruct (best_move_valid g1 Hw1 Ht1) as (q & Eq & Hq).
  rewrite Eq in E.
  destruct (terminal (place g1 q X)); [discriminate|].
  inversion E; subst g'. unfold lead in *.
  destruct (place_counts g1 q X Hq) as [-> ->].
  destruct (place_counts g p O Hv) as [Ex Eo]. fold g1 in Ex, Eo.
  rewrite Ex, Eo. cbn [Mark_eqb]. lia.
Qed.

(** X12: while the loop waits for the next event the game is not over:
    in a game played from a new grid, if the loop has not ended then
    [is_terminal_state] returns false, some cell is empty, and the two
    counters are equal. *)
Theorem running_game_not_over frames :
  let r := run (main silent frames) Grid_init in
  fst r = Ok Running ->
  is_terminal_state (snd r) = Ok false /\
  (exists row col, cell (board (snd r)) row col = Ok " ") /\
  x_count (snd r) = o_count (snd r).
Proof.
  intros r Hrun. subst r.
  destruct (run (main silent frames) Grid_init) as [o g'] eqn:E.
  cbn [fst snd] in *. subst o.
  destruct (main_invariant (fun g => humans_turn g /\ counts_agree g /\ lead g = 0)
              (fun _ _ => True)) with (frames := frames) (g := Grid_init)
    (o := Ok Running) (g' := g') as [_ HI].
  - intros; exact Logic.I.
  - intros g event o0 g0 (Hh & Hc & Hl) E0. split; [exact Logic.I|].
    intros ->.
    destruct (on_event_end g event _ _ Hh E0) as [_ Hh'].
    destruct (on_event_counts g event _ _
                (conj (proj1 (proj1 Hh)) Hc) E0) as [Hc' _].
    split; [apply Hh'; reflexivity|]. split; [exact Hc'|].
    apply (on_event_lead g event g0 Hh Hl E0).
  - split; [exact humans_turn_Grid_init|].
    split; [exact counts_agree_Grid_init|reflexivity].
  - exact E.
  - destruct (HI eq_refl) as (((Hw & Ht & _) & _ & _) & _ & Hl).
    split; [rewrite (is_terminal_state_wf g' Hw), Ht; reflexivity|].
    split.
    + destruct (moves g') as [|p l] eqn:Em.
      * exfalso. apply (not_terminal_moves g' Hw Ht). exact Em.
      * assert (Hin : In p (moves g')) by (rewrite Em; left; reflexivity).
        apply in_moves in Hin; [|assumption]. apply valid_true in Hin.
        eauto.
    + unfold lead in Hl. lia.
Qed.

Lemma running_game_not_over_witness :
  fst (run (main silent [[OTHER]; []]) Grid_init) = Ok Running /\
  (let r := run (main silent [[OTHER]; []]) Grid_init in
   is_terminal_state (snd r) = Ok false /\
   (exists row col, cell (board (snd r)) row col = Ok " ") /\
   x_count (snd r) = o_count (snd r)).
Proof.
  split; [reflexivity|].
  apply (running_game_not_over [[OTHER]; []]). reflexivity.
Defined.
